(** * process_favicon: background removal, crop and icon export

    A shallow embedding of [scripts/process_favicon.py].  The script turns
    one generated picture of a car into a transparent, cropped logo and a
    set of icons.  Rasters are modelled as rows of RGBA pixels, the
    pixel-access object as checked reads and writes on that raster, and
    the Pillow calls the script makes ([getbbox], [crop], [thumbnail],
    [resize], the ICO encoder) by their documented behaviour. *)

From Stdlib Require Import ZArith QArith Qround Qabs Lqa String.
From stdpp Require Import base tactics option list numbers.

Local Open Scope Z_scope.

(** ** Pixels and rasters *)

(** The 4-tuple [(r, g, b, a)] read from [pixels[x, y]] in mode "RGBA". *)
Record pixel := Pixel { red : Z; green : Z; blue : Z; alpha : Z }.

Global Instance pixel_eq_dec : EqDecision pixel.
Proof. solve_decision. Defined.

(** The value the script writes over a background pixel: [(0, 0, 0, 0)]. *)
Definition transparent_black : pixel := Pixel 0 0 0 0.

(** An image: [img.size] and the rows of the raster, top row first. *)
Record image := Image { width : nat; height : nat; rows : list (list pixel) }.

Global Instance image_eq_dec : EqDecision image.
Proof. solve_decision. Defined.

(** The raster has [height] rows of [width] pixels each. *)
Definition wf_image (img : image) : Prop :=
  length (rows img) = height img ∧
  Forall (λ row, length row = width img) (rows img).

Definition wf_imageb (img : image) : bool :=
  bool_decide (length (rows img) = height img) &&
  forallb (λ row, bool_decide (length row = width img)) (rows img).

(** [pixels[x, y]] as a read; out of range is Pillow's IndexError. *)
Definition getpixel (img : image) (x y : nat) : option pixel :=
  row ← rows img !! y; row !! x.

(** [pixels[x, y] = p]; out of range is Pillow's IndexError, here [None]. *)
Definition putpixel (img : image) (x y : nat) (p : pixel) : option image :=
  row ← rows img !! y;
  _ ← row !! x;
  Some (Image (width img) (height img) (<[y := <[x := p]> row]> (rows img))).

(** ** The classification rule (lines 18-29) *)

(** [is_car_color] as the script computes it: a flag that starts false and
    is raised by either test. *)
Definition is_car_color (p : pixel) : bool :=
  let r := red p in
  let g := green p in
  let b := blue p in
  let flag := false in
  let flag := if (g >? 100) && ((g >? r + 20) || (b >? r + 20)) then true else flag in
  let flag := if (b >? 150) && (g >? 150) then true else flag in
  flag.

(** The body of the inner loop at one coordinate. *)
Definition classify_at (x y : nat) (img : image) : option image :=
  p ← getpixel img x y;
  if is_car_color p then Some img else putpixel img x y transparent_black.

(** A [for] loop whose body may raise. *)
Fixpoint for_each {A S : Type} (body : A → S → option S) (l : list A) (s : S)
  : option S :=
  match l with
  | [] => Some s
  | a :: l' => s' ← body a s; for_each body l' s'
  end.

(** [for y in range(height): for x in range(width): ...] *)
Definition classification_pass (img : image) : option image :=
  let w := width img in
  let h := height img in
  for_each (λ y, for_each (λ x, classify_at x y) (seq 0 w)) (seq 0 h) img.

(** The same body run over an arbitrary list of [(x, y)] coordinates. *)
Definition classify_in_order (order : list (nat * nat)) (img : image)
  : option image :=
  for_each (λ xy, classify_at xy.1 xy.2) order img.

(** What the pass does to one pixel value. *)
Definition classify_pixel (p : pixel) : pixel :=
  if is_car_color p then p else transparent_black.

(** The raster with every pixel classified. *)
Definition classify_image (img : image) : image :=
  Image (width img) (height img) (map (map classify_pixel) (rows img)).

(** ** Pillow: bounding box and crop *)

(** A box [(left, upper, right, lower)]; right and lower are exclusive. *)
Definition box : Type := Z * Z * Z * Z.

(** A pixel counts for the bounding box when it is not fully transparent:
    on an RGBA raster Pillow's scan masks everything but alpha. *)
Definition has_alpha (p : pixel) : bool := negb (alpha p =? 0).

(** One row of the bounding-box scan, as Pillow's [ImagingGetBBox] runs
    it.  [x] is the column of the head of [row]; [x0] and [x1] are
    [bbox[0]] and [bbox[2]], kept across rows. *)
Fixpoint scan_row (x : Z) (row : list pixel) (x0 x1 : Z) (has_data : bool)
  : Z * Z * bool :=
  match row with
  | [] => (x0, x1, has_data)
  | p :: row' =>
      if has_alpha p
      then scan_row (x + 1) row'
             (if x <? x0 then x else x0) (if x >=? x1 then x + 1 else x1) true
      else scan_row (x + 1) row' x0 x1 has_data
  end.

(** The scan over the rows.  [bbox[1]] is set by the first row with
    data, [bbox[3]] by every row with data. *)
Fixpoint scan_rows (y : Z) (rs : list (list pixel)) (bb : box) : box :=
  match rs with
  | [] => bb
  | row :: rs' =>
      let '(x0, y0, x1, y1) := bb in
      let '(x0', x1', has_data) := scan_row 0 row x0 x1 false in
      scan_rows (y + 1) rs'
        (if has_data
         then (x0', (if y0 <? 0 then y else y0), x1', y + 1)
         else (x0', y0, x1', y1))
  end.

(** Modelled from the spec: Pillow's [Image.getbbox], which is not part of
    the script: "the bounding box of all non-fully-transparent pixels",
    [None] when there is no such pixel.  It is computed the way Pillow
    does on an RGBA image, by the scan above started from
    [(xsize, -1, 0, 0)]; [getbbox_Some] and [getbbox_bounding_box] below
    show that the result is the smallest box around those pixels. *)
Definition getbbox (img : image) : option box :=
  let '(x0, y0, x1, y1) :=
    scan_rows 0 (rows img) (Z.of_nat (width img), -1, 0, 0) in
  if y0 <? 0 then None else Some (x0, y0, x1, y1).

(** The pixel at integer coordinates, transparent black outside the
    raster (what Pillow's crop fills in there). *)
Definition pixel_or_zero (img : image) (x y : Z) : pixel :=
  if (0 <=? x) && (0 <=? y)
  then default transparent_black (getpixel img (Z.to_nat x) (Z.to_nat y))
  else transparent_black.

(** A new raster of the given size, filled pixel by pixel. *)
Definition raster (w h : nat) (f : nat → nat → pixel) : image :=
  Image w h (map (λ y, map (λ x, f x y) (seq 0 w)) (seq 0 h)).

(** Modelled from the spec: Pillow's [Image.crop], which is not part of
    the script ("crop to that rectangle"): a new raster of size
    [(right - left, lower - upper)] whose pixel [(x, y)] is the source
    pixel [(left + x, upper + y)].  A box with [right < left] or
    [lower < upper] is a ValueError in Pillow. *)
Definition crop (img : image) (b : box) : option image :=
  let '(x0, y0, x1, y1) := b in
  if x1 <? x0 then None
  else if y1 <? y0 then None
  else
    Some (raster (Z.to_nat (x1 - x0)) (Z.to_nat (y1 - y0))
            (λ dx dy, pixel_or_zero img (x0 + Z.of_nat dx) (y0 + Z.of_nat dy))).

(** ** remove_dark_background (lines 10-42) *)

(** What the script leaves on disk. *)
Inductive file :=
  | PNG (img : image)
  | ICO (frames : list image).

Definition padding : Z := 5.

(** Lines 34-37: the bounding box grown by [padding] and clamped with
    [max(0, _)] and [min(width, _)], [min(height, _)]. *)
Definition crop_box (w h : nat) (bb : box) : box :=
  let '(b0, b1, b2, b3) := bb in
  let left := Z.max 0 (b0 - padding) in
  let top := Z.max 0 (b1 - padding) in
  let right := Z.min (Z.of_nat w) (b2 + padding) in
  let bottom := Z.min (Z.of_nat h) (b3 + padding) in
  (left, top, right, bottom).

(** Lines 31-38: crop when [getbbox] returns a box, keep the image when it
    returns [None]. *)
Definition crop_to_content (w h : nat) (img : image) : option image :=
  match getbbox img with
  | Some bb => crop img (crop_box w h bb)
  | None => Some img
  end.

(** [remove_dark_background] on the decoded RGBA image [src]: the returned
    image and the file saved at [output_path].  [width] and [height] are
    read once, before the loop.  [None] is an exception of the loop or of
    the crop; [img.save] on line 40 is taken to succeed (a missing
    directory, which makes it raise, is outside the model), so the list
    is what the function writes when the save goes through. *)
Definition remove_dark_background (src : image) (output_path : string)
  : option (image * list (string * file)) :=
  let w := width src in
  let h := height src in
  img ← classification_pass src;
  img ← crop_to_content w h img;
  Some (img, [(output_path, PNG img)]).

(** ** Pillow: resize and thumbnail *)

(** Python's [min(a, b, key=key)]: the first of the two with the least
    key. *)
Definition min_by_key (key : Z → Q) (a b : Z) : Z :=
  if Qle_bool (key a) (key b) then a else b.

(** [round_aspect] of Pillow's [Image.thumbnail]:
    [max(min(floor(number), ceil(number), key=key), 1)]. *)
Definition round_aspect (number : Q) (key : Z → Q) : Z :=
  Z.max (min_by_key key (Qfloor number) (Qceiling number)) 1.

(** Modelled from the spec: the size computed by Pillow's
    [Image.thumbnail] ("aspect-ratio-preserving downscale to fit within a
    maximum box, never upscaling"), which is not part of the script.  The
    steps are those of Pillow's [preserve_aspect_ratio] for the requested
    box [(x, y)] and an image of size [(w, h)]; the quotients Pillow
    evaluates in double precision are exact rationals here.  The outer
    [None] is a ZeroDivisionError, the inner [None] means that the image
    already fits and is left alone. *)
Definition preserve_aspect_ratio (x y w h : Z) : option (option (Z * Z)) :=
  if (x >=? w) && (y >=? h) then Some None
  else if h =? 0 then None
  else
    let aspect := (inject_Z w / inject_Z h)%Q in
    if y =? 0 then None
    else if Qle_bool aspect (inject_Z x / inject_Z y)
    then
      let x' := round_aspect (inject_Z y * aspect)
                  (λ n, Qabs (aspect - inject_Z n / inject_Z y)) in
      Some (Some (x', y))
    else
      let y' := round_aspect (inject_Z x / aspect)
                  (λ n, if n =? 0 then 0%Q
                        else Qabs (aspect - inject_Z x / inject_Z n)) in
      Some (Some (x, y')).

(** ** Paths and the size tables of create_favicon_sizes *)

(** [os.path.join(a, b)] on POSIX paths. *)
Definition os_path_join (a b : string) : string :=
  if String.prefix "/" b then b
  else if String.eqb a EmptyString then b
  else if String.eqb (String.substring (String.length a - 1) 1 a) "/"
       then (a ++ b)%string
       else (a ++ "/" ++ b)%string.

(** The [sizes] dict, in insertion order. *)
Definition sizes : list (string * nat) :=
  [ ("favicon-16x16.png"%string, 16%nat);
    ("favicon-32x32.png"%string, 32%nat);
    ("favicon-192x192.png"%string, 192%nat);
    ("apple-touch-icon.png"%string, 180%nat) ].

Definition ico_sizes : list (nat * nat) :=
  [ (16, 16)%nat; (32, 32)%nat; (48, 48)%nat ].

(** Tuple order on sizes, as [sorted] uses it. *)
Definition size_ltb (a b : nat * nat) : bool :=
  (a.1 <? b.1)%nat || ((a.1 =? b.1)%nat && (a.2 <? b.2)%nat).

Fixpoint insert_size (s : nat * nat) (l : list (nat * nat))
  : list (nat * nat) :=
  match l with
  | [] => [s]
  | t :: l' =>
      if size_ltb s t then s :: l
      else if size_ltb t s then t :: insert_size s l'
      else l
  end.

(** [sorted(set(sizes))]. *)
Definition sorted_set (l : list (nat * nat)) : list (nat * nat) :=
  foldr insert_size [] l.

Definition size_of (img : image) : nat * nat := (width img, height img).

Section Resampling.

(** The resampling filter: [resample src w h x y] is the pixel the
    filter computes at [(x, y)] when [src] is resampled to [w] by [h].
    The script always passes [Image.Resampling.LANCZOS]; nothing below
    depends on the values the filter produces. *)
Variable resample : image → nat → nat → nat → nat → pixel.

(** Modelled from the spec: Pillow's [Image.resize] ("resize that forces
    output to specified dimensions, ignoring source aspect ratio"), which
    is not part of the script.  An image that already has the requested
    size is copied; a requested size with a zero side is a ValueError. *)
Definition resize (img : image) (size : nat * nat) : option image :=
  let '(w, h) := size in
  if decide ((width img, height img) = (w, h)) then Some img
  else if decide (w = 0%nat ∨ h = 0%nat) then None
  else Some (raster w h (resample img w h)).

(** Modelled from the spec: Pillow's [Image.thumbnail], with the size of
    [preserve_aspect_ratio] above; the image is resized only when that
    size differs from its own. *)
Definition thumbnail (img : image) (size : nat * nat) : option image :=
  let '(x, y) := size in
  fit ← preserve_aspect_ratio (Z.of_nat x) (Z.of_nat y)
          (Z.of_nat (width img)) (Z.of_nat (height img));
  match fit with
  | None => Some img
  | Some (x', y') => resize img (Z.to_nat x', Z.to_nat y')
  end.

(** ** create_favicon (lines 44-49) *)

(** The file written by [create_favicon]: a copy of the input, shrunk by
    [thumbnail((128, 128), LANCZOS)].  The save on line 48 is taken to
    succeed. *)
Definition create_favicon (input_img : image) (output_path : string)
  : option (list (string * file)) :=
  favicon ← thumbnail input_img (128, 128)%nat;
  Some [(output_path, PNG favicon)].

(** ** create_favicon_sizes (lines 51-76) *)

(** Lines 60-65: one exact resize and one PNG per entry of [sizes]. *)
Definition save_png_sizes (input_img : image) (public_dir : string)
  : option (list (string * file)) :=
  mapM (λ entry : string * nat,
          let '(filename, size) := entry in
          resized ← resize input_img (size, size);
          Some (os_path_join public_dir filename, PNG resized))
       sizes.

(** Lines 67-72: the list [ico_images]. *)
Definition make_ico_images (input_img : image) : option (list image) :=
  mapM (λ size, resize input_img size) ico_sizes.

(** The frames Pillow's ICO encoder writes for
    [im.save(path, format="ICO", sizes=..., append_images=...)].  The
    encoder is not part of the script; this follows Pillow's documentation
    of the format, "sizes: a list of sizes including in this ico file
    [...] Any sizes bigger than the original size or 256 will be ignored"
    and "append_images: a list of images to replace the scaled down
    versions of the image [...] their use is determined by the size of
    each image", and its [_save]: the requested sizes are taken in
    [sorted(set(sizes))] order, the original size is the size of [im]
    (the image [save] is called on), and each size that is kept gets the
    first provided image of exactly that size, else a thumbnail of the
    last provided image. *)
Definition ico_frames (im : image) (requested : list (nat * nat))
    (append_images : list image) : option (list image) :=
  let provided_ims := im :: append_images in
  let kept :=
    filter (λ s : nat * nat,
              ¬ (width im < s.1 ∨ height im < s.2 ∨ 256 < s.1 ∨ 256 < s.2)%nat)
           (sorted_set requested) in
  mapM (λ s,
          match list_find (λ p, size_of p = s) provided_ims with
          | Some (_, p) => Some p
          | None => thumbnail (List.last provided_ims im) s
          end)
       kept.

(** Lines 51-76: the four PNG files, then [favicon.ico], saved from
    [ico_images[0]] with [sizes] read off the three images and
    [append_images=ico_images[1:]].  The saves on lines 64 and 75 are
    taken to succeed (they raise when [public_dir] does not exist, which
    is outside the model): the list is what the function writes when
    every save goes through, in the order of the saves. *)
Definition create_favicon_sizes (input_img : image) (public_dir : string)
  : option (list (string * file)) :=
  pngs ← save_png_sizes input_img public_dir;
  ico_images ← make_ico_images input_img;
  first ← ico_images !! 0%nat;
  frames ← ico_frames first (map size_of ico_images) (drop 1 ico_images);
  Some (pngs ++ [(os_path_join public_dir "favicon.ico", ICO frames)]).

(** ** The script body (lines 78-91) *)

(** The whole run on the decoded source image: the files written, in
    order.  A step that raises ends the run.  [os.makedirs] on line 84
    creates the directory every file goes to; it and the saves are taken
    to succeed. *)
Definition main (decoded : image) : option (list (string * file)) :=
  let transparent_output := "client/public/car-logo-transparent.png"%string in
  let favicon_output := "client/public/favicon.png"%string in
  let public_dir := "client/public"%string in
  '(transparent_img, saved) ← remove_dark_background decoded transparent_output;
  favicon ← create_favicon transparent_img favicon_output;
  icons ← create_favicon_sizes transparent_img public_dir;
  Some (saved ++ favicon ++ icons).

End Resampling.

(** ** Vocabulary of the statements *)

(** The rule of the specification, on the channel values of a pixel. *)
Definition keep_rule (p : pixel) : Prop :=
  (green p > 100 ∧ (green p > red p + 20 ∨ blue p > red p + 20)) ∨
  (blue p > 150 ∧ green p > 150).

(** "Alpha is unchanged if and only if the rule holds", for the pixels of
    one image. *)
Definition alpha_unchanged_iff_rule (img : image) : Prop :=
  ∀ out x y p p',
    classification_pass img = Some out →
    getpixel img x y = Some p → getpixel out x y = Some p' →
    (alpha p' = alpha p ↔ keep_rule p).

(** "A background pixel keeps its red, green and blue values", for the
    pixels of one image. *)
Definition background_keeps_rgb (img : image) : Prop :=
  ∀ out x y p p',
    classification_pass img = Some out →
    getpixel img x y = Some p → getpixel out x y = Some p' →
    ¬ keep_rule p →
    red p' = red p ∧ green p' = green p ∧ blue p' = blue p.

(** [(x, y)] lies inside the raster. *)
Definition in_bounds (img : image) (x y : nat) : Prop :=
  (x < width img)%nat ∧ (y < height img)%nat.

(** A traversal order visits only coordinates of the image and misses
    none; it may visit a coordinate more than once. *)
Definition traversal (img : image) (order : list (nat * nat)) : Prop :=
  ∀ x y, (x, y) ∈ order ↔ in_bounds img x y.

(** The pixel at [(x, y)] exists and is not fully transparent. *)
Definition opaque_at (img : image) (x y : Z) : Prop :=
  0 ≤ x ∧ 0 ≤ y ∧
  ∃ p, getpixel img (Z.to_nat x) (Z.to_nat y) = Some p ∧ alpha p ≠ 0.

(** [b] is the smallest box that contains every pixel that is not fully
    transparent: it contains them all and each of its four sides touches
    one. *)
Definition bounding_box (img : image) (b : box) : Prop :=
  let '(x0, y0, x1, y1) := b in
  (∀ x y, opaque_at img x y → x0 ≤ x < x1 ∧ y0 ≤ y < y1) ∧
  (∃ y, opaque_at img x0 y) ∧ (∃ y, opaque_at img (x1 - 1) y) ∧
  (∃ x, opaque_at img x y0) ∧ (∃ x, opaque_at img x (y1 - 1)).

(** Column [i] of [row] holds a pixel the bounding-box scan counts. *)
Definition row_data (row : list pixel) (i : nat) : Prop :=
  ∃ p, row !! i = Some p ∧ has_alpha p = true.

(** Row [j] of [rs] holds such a pixel in column [i]. *)
Definition rows_data (rs : list (list pixel)) (i j : nat) : Prop :=
  ∃ row, rs !! j = Some row ∧ row_data row i.

(** A box moved by [(dx, dy)]. *)
Definition translate (dx dy : Z) (b : box) : box :=
  let '(x0, y0, x1, y1) := b in (x0 + dx, y0 + dy, x1 + dx, y1 + dy).

(** The nested loop of the script visits the coordinates row by row. *)
Definition row_major (w h : nat) : list (nat * nat) :=
  flat_map (λ y, map (λ x, (x, y)) (seq 0 w)) (seq 0 h).

(** ** Sample inputs *)

(** One dark gray pixel that is already fully transparent. *)
Definition clear_gray_pixel : image := Image 1 1 [[Pixel 20 20 20 0]].

(** One opaque dark gray pixel. *)
Definition gray_pixel : image := Image 1 1 [[Pixel 20 20 20 255]].

(** Two opaque dark gray pixels side by side. *)
Definition gray_strip : image :=
  Image 2 1 [[Pixel 20 20 20 255; Pixel 20 20 20 255]].

(** A 16 by 12 dark gray field with two green pixels, at (9, 7) and
    (10, 8). *)
Definition car_on_gray : image :=
  raster 16 12
    (λ x y, if ((x =? 9) && (y =? 7) || (x =? 10) && (y =? 8))%nat
            then Pixel 0 200 0 255 else Pixel 20 20 20 255).

(** A 3 by 2 raster of opaque green. *)
Definition green_3x2 : image := raster 3 2 (λ _ _, Pixel 0 200 0 255).


(** A resampling filter that picks the nearest source pixel. *)
Definition nearest (src : image) (w h x y : nat) : pixel :=
  pixel_or_zero src (Z.of_nat (x * width src / w))
                    (Z.of_nat (y * height src / h)).

(** * Properties *)

(** ** The rule *)

Lemma is_car_color_rule p : is_car_color p = true ↔ keep_rule p.
Proof.
  unfold is_car_color, keep_rule.
  destruct (green p >? 100) eqn:E1, (green p >? red p + 20) eqn:E2,
    (blue p >? red p + 20) eqn:E3, (blue p >? 150) eqn:E4,
    (green p >? 150) eqn:E5; simpl;
    rewrite ?Z.gtb_ltb in *;
    repeat match goal with
           | H : (_ <? _) = true |- _ => apply Z.ltb_lt in H
           | H : (_ <? _) = false |- _ => apply Z.ltb_ge in H
           end;
    split; intros; try done; try lia.
Qed.

Lemma is_car_color_transparent_black : is_car_color transparent_black = false.
Proof. reflexivity. Qed.

Lemma classify_pixel_idemp p : classify_pixel (classify_pixel p) = classify_pixel p.
Proof.
  unfold classify_pixel. destruct (is_car_color p) eqn:E.
  - by rewrite E.
  - by rewrite is_car_color_transparent_black.
Qed.

(** ** Reads and writes on a raster *)

Lemma getpixel_in_bounds img x y :
  wf_image img → is_Some (getpixel img x y) ↔ in_bounds img x y.
Proof.
  intros [Hh Hw]. unfold getpixel, in_bounds. split.
  - intros [p Hp]. destruct (rows img !! y) as [row|] eqn:Hy; [|done].
    simpl in Hp. apply lookup_lt_Some in Hp.
    apply lookup_lt_Some in Hy as Hlt.
    rewrite Forall_lookup in Hw. rewrite (Hw _ _ Hy) in Hp. lia.
  - intros [Hx Hy]. rewrite <- Hh in Hy.
    apply lookup_lt_is_Some_2 in Hy as [row Hrow]. rewrite Hrow. simpl.
    apply lookup_lt_is_Some_2. rewrite Forall_lookup in Hw.
    by rewrite (Hw _ _ Hrow).
Qed.

Lemma wf_imageb_true img : wf_imageb img = true → wf_image img.
Proof.
  unfold wf_imageb, wf_image. rewrite andb_true_iff, bool_decide_eq_true.
  intros [? Hall]. split; [done|].
  rewrite forallb_forall in Hall. apply Forall_forall. intros row Hrow.
  apply Hall in Hrow. by apply bool_decide_eq_true in Hrow.
Qed.

Lemma image_ext img1 img2 :
  wf_image img1 → wf_image img2 →
  width img1 = width img2 → height img1 = height img2 →
  (∀ x y, getpixel img1 x y = getpixel img2 x y) →
  img1 = img2.
Proof.
  destruct img1 as [w1 h1 r1], img2 as [w2 h2 r2].
  intros [Hh1 Hw1] [Hh2 Hw2]. simpl in *. intros -> -> Hpx. f_equal.
  apply list_eq. intros y.
  destruct (r1 !! y) as [row1|] eqn:E1, (r2 !! y) as [row2|] eqn:E2.
  - f_equal. apply list_eq. intros x. specialize (Hpx x y).
    unfold getpixel in Hpx. simpl in Hpx. by rewrite E1, E2 in Hpx.
  - apply lookup_lt_Some in E1. apply lookup_ge_None in E2. lia.
  - apply lookup_ge_None in E1. apply lookup_lt_Some in E2. lia.
  - done.
Qed.

Lemma putpixel_spec img x y p :
  wf_image img → in_bounds img x y →
  ∃ img', putpixel img x y p = Some img' ∧ wf_image img' ∧
    width img' = width img ∧ height img' = height img ∧
    ∀ x' y', getpixel img' x' y' =
             if decide (x' = x ∧ y' = y) then Some p else getpixel img x' y'.
Proof.
  intros Hwf Hin. pose proof Hwf as [Hh Hw].
  apply (getpixel_in_bounds img x y Hwf) in Hin as [q Hq].
  unfold getpixel in Hq. unfold putpixel.
  destruct (rows img !! y) as [row|] eqn:Hrow; [|done]. simpl in *.
  rewrite Hq. simpl. eexists. split; [done|].
  apply lookup_lt_Some in Hrow as Hylt. apply lookup_lt_Some in Hq as Hxlt.
  split; [|split; [done|split; [done|]]].
  - split; simpl; [by rewrite length_insert|].
    apply Forall_insert; [done|]. rewrite length_insert.
    rewrite Forall_lookup in Hw. by apply (Hw _ _ Hrow).
  - intros x' y'. unfold getpixel. simpl.
    destruct (decide (y' = y)) as [->|Hne].
    + rewrite list_lookup_insert_eq by done. simpl.
      destruct (decide (x' = x)) as [->|Hnx].
      * rewrite list_lookup_insert_eq by done. by rewrite decide_True.
      * rewrite list_lookup_insert_ne by done. rewrite decide_False by tauto.
        by rewrite Hrow.
    + rewrite list_lookup_insert_ne by done. by rewrite decide_False by tauto.
Qed.

(** ** The classification pass *)

Lemma wf_classify_image img : wf_image img → wf_image (classify_image img).
Proof.
  intros [Hh Hw]. split; simpl; [by rewrite length_map|].
  apply Forall_fmap. eapply List.Forall_impl; [|exact Hw].
  intros row Hrow. simpl. by rewrite length_map.
Qed.

Lemma getpixel_classify_image img x y :
  getpixel (classify_image img) x y = classify_pixel <$> getpixel img x y.
Proof.
  unfold getpixel. simpl. rewrite list_lookup_fmap.
  destruct (rows img !! y) as [row|]; simpl; [|done].
  apply list_lookup_fmap.
Qed.

Lemma classify_at_spec img x y :
  wf_image img → in_bounds img x y →
  ∃ img', classify_at x y img = Some img' ∧ wf_image img' ∧
    width img' = width img ∧ height img' = height img ∧
    ∀ x' y', getpixel img' x' y' =
             if decide (x' = x ∧ y' = y)
             then classify_pixel <$> getpixel img x y
             else getpixel img x' y'.
Proof.
  intros Hwf Hin.
  destruct (proj2 (getpixel_in_bounds img x y Hwf) Hin) as [p Hp].
  unfold classify_at. rewrite Hp. simpl. unfold classify_pixel.
  destruct (is_car_color p).
  - exists img. split_and!; [done..|].
    intros x' y'. case_decide as Hd; [|done]. by destruct Hd as [-> ->].
  - destruct (putpixel_spec img x y transparent_black Hwf Hin)
      as (img' & Hput & Hwf' & Hw' & Hh' & Hget).
    exists img'. by split_and!.
Qed.

Lemma for_each_app {A S} (body : A → S → option S) l1 l2 s :
  for_each body (l1 ++ l2) s = for_each body l1 s ≫= for_each body l2.
Proof.
  revert s. induction l1 as [|a l1 IH]; intros s; simpl; [done|].
  destruct (body a s) as [s'|]; simpl; [apply IH|done].
Qed.

Lemma for_each_map {A B S} (f : A → B) (body : B → S → option S) l s :
  for_each body (map f l) s = for_each (λ a, body (f a)) l s.
Proof.
  revert s. induction l as [|a l IH]; intros s; simpl; [done|].
  destruct (body (f a) s); simpl; [apply IH|done].
Qed.

(** The nested loop is the single loop over the row-major order. *)
Lemma classification_pass_row_major img :
  classification_pass img =
  classify_in_order (row_major (width img) (height img)) img.
Proof.
  unfold classification_pass, classify_in_order, row_major.
  generalize (seq 0 (height img)) as ys. generalize img at 2 4 as s.
  intros s ys. revert s. induction ys as [|y ys IH]; intros s; simpl; [done|].
  rewrite for_each_app, for_each_map. simpl.
  destruct (for_each _ (seq 0 (width img)) s); simpl; [apply IH|done].
Qed.

Lemma traversal_row_major img : traversal img (row_major (width img) (height img)).
Proof.
  intros x y. unfold row_major, in_bounds.
  rewrite list_elem_of_In, in_flat_map. split.
  - intros (y' & Hy' & Hin). apply in_map_iff in Hin as (x' & Heq & Hx').
    inversion Heq; subst. apply in_seq in Hy', Hx'. lia.
  - intros [Hx Hy]. exists y. split; [apply in_seq; lia|].
    apply in_map_iff. exists x. split; [done|apply in_seq; lia].
Qed.

(** Running the loop body over any list of coordinates inside the image
    succeeds and classifies exactly the pixels it visits. *)
Lemma classify_in_order_spec order : ∀ img,
  wf_image img → (∀ x y, (x, y) ∈ order → in_bounds img x y) →
  ∃ out, classify_in_order order img = Some out ∧ wf_image out ∧
    width out = width img ∧ height out = height img ∧
    ∀ x y, getpixel out x y =
           if decide ((x, y) ∈ order)
           then classify_pixel <$> getpixel img x y
           else getpixel img x y.
Proof.
  induction order as [|[x0 y0] order IH]; intros img Hwf Hin.
  - exists img. split_and!; [done..|].
    intros x y. rewrite decide_False; [done|]. apply not_elem_of_nil.
  - assert (in_bounds img x0 y0) as Hin0 by (apply Hin; left).
    destruct (classify_at_spec img x0 y0 Hwf Hin0)
      as (img1 & Hstep & Hwf1 & Hw1 & Hh1 & Hget1).
    destruct (IH img1 Hwf1) as (out & Hrun & Hwfo & Hwo & Hho & Hgeto).
    { intros x y Hxy. unfold in_bounds. rewrite Hw1, Hh1.
      apply Hin. by right. }
    exists out. unfold classify_in_order in *. simpl. rewrite Hstep. simpl.
    split; [done|]. split; [done|]. split; [congruence|]. split; [congruence|].
    intros x y. rewrite Hgeto, !Hget1.
    destruct (decide (x = x0 ∧ y = y0)) as [[-> ->]|Hne].
    + rewrite (decide_True (P := (x0, y0) ∈ (x0, y0) :: order)) by left.
      case_decide; [|done].
      destruct (getpixel img x0 y0); simpl; [|done].
      by rewrite classify_pixel_idemp.
    + destruct (decide ((x, y) ∈ order)) as [Hmem|Hmem].
      * by rewrite decide_True by (by right).
      * rewrite decide_False; [done|].
        intros [Heq|?]%elem_of_cons; [|done].
        inversion Heq; subst. tauto.
Qed.

(** Any traversal order produces the classified raster. *)
Lemma classify_in_order_traversal img order :
  wf_image img → traversal img order →
  classify_in_order order img = Some (classify_image img).
Proof.
  intros Hwf Htr.
  destruct (classify_in_order_spec order img Hwf)
    as (out & Hrun & Hwfo & Hwo & Hho & Hget).
  { intros x y. apply Htr. }
  rewrite Hrun. f_equal.
  apply image_ext; try done; [by apply wf_classify_image|].
  intros x y. rewrite Hget, getpixel_classify_image.
  case_decide as Hmem; [done|].
  destruct (getpixel img x y) eqn:Hp; [|done].
  exfalso. apply Hmem, Htr, (getpixel_in_bounds img x y Hwf). eauto.
Qed.

(** The pass of the script always completes, with the classified raster. *)
Lemma classification_pass_classify_image img :
  wf_image img → classification_pass img = Some (classify_image img).
Proof.
  intros Hwf. rewrite classification_pass_row_major.
  apply classify_in_order_traversal; [done|apply traversal_row_major].
Qed.

(** ** The bounding-box scan *)

Lemma row_data_cons p row i :
  row_data (p :: row) i ↔
  (i = 0%nat ∧ has_alpha p = true) ∨ (∃ i', i = S i' ∧ row_data row i').
Proof.
  unfold row_data. split.
  - intros (q & Hq & Ha). destruct i as [|i']; simpl in Hq.
    + left. by inversion Hq; subst.
    + right. exists i'. eauto.
  - intros [[-> Ha]|(i' & -> & q & Hq & Ha)]; eauto.
Qed.

Lemma rows_data_cons row rs i j :
  rows_data (row :: rs) i j ↔
  (j = 0%nat ∧ row_data row i) ∨ (∃ j', j = S j' ∧ rows_data rs i j').
Proof.
  unfold rows_data. split.
  - intros (r & Hr & Hd). destruct j as [|j']; simpl in Hr.
    + left. by inversion Hr; subst.
    + right. exists j'. eauto.
  - intros [[-> Hd]|(j' & -> & r & Hr & Hd)]; eauto.
Qed.

Lemma scan_row_spec row : ∀ x x0 x1 has x0' x1' has',
  scan_row x row x0 x1 has = (x0', x1', has') →
  x0' ≤ x0 ∧ x1 ≤ x1' ∧
  (∀ i, row_data row i → x0' ≤ x + Z.of_nat i < x1') ∧
  (x0' = x0 ∨ ∃ i, row_data row i ∧ x0' = x + Z.of_nat i) ∧
  (x1' = x1 ∨ ∃ i, row_data row i ∧ x1' = x + Z.of_nat i + 1) ∧
  (has' = true ↔ has = true ∨ ∃ i, row_data row i).
Proof.
  induction row as [|p row IH]; intros x x0 x1 has x0' x1' has' Hscan;
    simpl in Hscan.
  - inversion Hscan; subst. split_and!; try lia; try (by left).
    + intros i (q & Hq & _). done.
    + split; [by left|]. intros [?|(i & q & Hq & _)]; done.
  - destruct (has_alpha p) eqn:Hp.
    + apply IH in Hscan as (Hlo & Hhi & Hall & Hx0 & Hx1 & Hhas).
      assert ((if x <? x0 then x else x0) ≤ x0 ∧ (if x <? x0 then x else x0) ≤ x)
        as [Hm0 Hm0'] by (destruct (Z.ltb_spec x x0); lia).
      assert (x1 ≤ (if x >=? x1 then x + 1 else x1) ∧
              x < (if x >=? x1 then x + 1 else x1))
        as [Hm1 Hm1'] by (rewrite Z.geb_leb; destruct (Z.leb_spec x1 x); lia).
      split_and!; try lia.
      * intros i [[-> _]|(i' & -> & Hd)]%row_data_cons; [lia|].
        specialize (Hall i' Hd). lia.
      * destruct Hx0 as [->|(i & Hd & ->)].
        -- destruct (Z.ltb_spec x x0); [|by left].
           right. exists 0%nat. split; [|lia]. apply row_data_cons. by left.
        -- right. exists (S i). split; [|lia]. apply row_data_cons. eauto.
      * destruct Hx1 as [->|(i & Hd & ->)].
        -- rewrite Z.geb_leb. destruct (Z.leb_spec x1 x); [|by left].
           right. exists 0%nat. split; [|lia]. apply row_data_cons. by left.
        -- right. exists (S i). split; [|lia]. apply row_data_cons. eauto.
      * split; [|intros _; apply Hhas; by left].
        intros _. right. exists 0%nat. apply row_data_cons. by left.
    + apply IH in Hscan as (Hlo & Hhi & Hall & Hx0 & Hx1 & Hhas).
      split_and!; try lia.
      * intros i [[_ Hq]|(i' & -> & Hd)]%row_data_cons; [congruence|].
        specialize (Hall i' Hd). lia.
      * destruct Hx0 as [->|(i & Hd & ->)]; [by left|].
        right. exists (S i). split; [|lia]. apply row_data_cons. eauto.
      * destruct Hx1 as [->|(i & Hd & ->)]; [by left|].
        right. exists (S i). split; [|lia]. apply row_data_cons. eauto.
      * rewrite Hhas. split; (intros [?|(i & Hd)]; [by left|right]).
        -- exists (S i). apply row_data_cons. eauto.
        -- apply row_data_cons in Hd as [[_ Hq]|(i' & _ & Hd)];
             [congruence|eauto].
Qed.

Lemma scan_rows_spec rs : ∀ y x0 y0 x1 y1 x0' y0' x1' y1',
  0 ≤ y →
  scan_rows y rs (x0, y0, x1, y1) = (x0', y0', x1', y1') →
  x0' ≤ x0 ∧ x1 ≤ x1' ∧
  (∀ i j, rows_data rs i j →
          x0' ≤ Z.of_nat i < x1' ∧ y + Z.of_nat j < y1' ∧
          (y0 < 0 → y0' ≤ y + Z.of_nat j)) ∧
  (x0' = x0 ∨ ∃ i j, rows_data rs i j ∧ x0' = Z.of_nat i) ∧
  (x1' = x1 ∨ ∃ i j, rows_data rs i j ∧ x1' = Z.of_nat i + 1) ∧
  (y0' = y0 ∨ (y0 < 0 ∧ ∃ i j, rows_data rs i j ∧ y0' = y + Z.of_nat j)) ∧
  (y1' = y1 ∨ ∃ i j, rows_data rs i j ∧ y1' = y + Z.of_nat j + 1) ∧
  ((∃ i j, rows_data rs i j) → y0 < 0 → 0 ≤ y0').
Proof.
  induction rs as [|row rs IH]; intros y x0 y0 x1 y1 x0' y0' x1' y1' Hy Hscan;
    simpl in Hscan.
  - inversion Hscan; subst. split_and!; try lia; try (by left).
    + intros i j (r & Hr & _). done.
    + intros (i & j & r & Hr & _). done.
  - destruct (scan_row 0 row x0 x1 false) as [[x0r x1r] has] eqn:Hrow.
    apply scan_row_spec in Hrow as (Hlo & Hhi & Hall & Hx0 & Hx1 & Hhas).
    assert (∀ i j, rows_data rs i j → rows_data (row :: rs) i (S j)) as Hlift.
    { intros i j Hd. apply rows_data_cons. right. eauto. }
    assert (∀ i, row_data row i → rows_data (row :: rs) i 0) as Hhead.
    { intros i Hd. apply rows_data_cons. left. eauto. }
    destruct has.
    + apply IH in Hscan as (Hlo' & Hhi' & Hall' & Hx0' & Hx1' & Hy0' & Hy1' & Hpos);
        [|lia].
      assert (y0' = (if y0 <? 0 then y else y0)) as Hy0eq.
      { destruct Hy0' as [?|[Hneg _]]; [done|].
        destruct (Z.ltb_spec y0 0); lia. }
      assert (y + 1 ≤ y1') as Hy1le.
      { destruct Hy1' as [->|(i & j & _ & ->)]; lia. }
      split_and!; try lia.
      * intros i j [[-> Hd]|(j' & -> & Hd)]%rows_data_cons.
        -- specialize (Hall i Hd).
           destruct (Z.ltb_spec y0 0); lia.
        -- specialize (Hall' i j' Hd).
           destruct (Z.ltb_spec y0 0); lia.
      * destruct Hx0' as [->|(i & j & Hd & ->)]; [|by eauto 6].
        destruct Hx0 as [->|(i & Hd & ->)]; [by left|].
        right. exists i, 0%nat. split; [eauto|lia].
      * destruct Hx1' as [->|(i & j & Hd & ->)]; [|by eauto 6].
        destruct Hx1 as [->|(i & Hd & ->)]; [by left|].
        right. exists i, 0%nat. split; [eauto|lia].
      * destruct (Z.ltb_spec y0 0); [|by left].
        right. split; [done|].
        destruct (proj1 Hhas eq_refl) as [?|[i Hd]]; [done|].
        exists i, 0%nat. split; [eauto|lia].
      * destruct Hy1' as [->|(i & j & Hd & ->)].
        -- destruct (proj1 Hhas eq_refl) as [?|[i Hd]]; [done|].
           right. exists i, 0%nat. split; [eauto|lia].
        -- right. exists i, (S j). split; [eauto|lia].
      * intros _ Hneg. destruct (Z.ltb_spec y0 0); lia.
    + apply IH in Hscan as (Hlo' & Hhi' & Hall' & Hx0' & Hx1' & Hy0' & Hy1' & Hpos);
        [|lia].
      assert (∀ i, ¬ row_data row i) as Hnone.
      { intros i Hd. assert (false = true) by (apply Hhas; eauto). done. }
      split_and!; try lia.
      * intros i j [[-> Hd]|(j' & -> & Hd)]%rows_data_cons.
        -- by apply Hnone in Hd.
        -- specialize (Hall' i j' Hd). lia.
      * destruct Hx0' as [->|(i & j & Hd & ->)]; [|by eauto 6].
        destruct Hx0 as [->|(i & Hd & ->)]; [by left|]. by apply Hnone in Hd.
      * destruct Hx1' as [->|(i & j & Hd & ->)]; [|by eauto 6].
        destruct Hx1 as [->|(i & Hd & ->)]; [by left|]. by apply Hnone in Hd.
      * destruct Hy0' as [->|(Hneg & i & j & Hd & ->)]; [by left|].
        right. split; [done|]. exists i, (S j). split; [eauto|lia].
      * destruct Hy1' as [->|(i & j & Hd & ->)]; [by left|].
        right. exists i, (S j). split; [eauto|lia].
      * intros (i & j & [[-> Hd]|(j' & -> & Hd)]%rows_data_cons) Hneg.
        -- by apply Hnone in Hd.
        -- apply Hpos; eauto.
Qed.

Lemma has_alpha_true p : has_alpha p = true ↔ alpha p ≠ 0.
Proof.
  unfold has_alpha. rewrite negb_true_iff. destruct (Z.eqb_spec (alpha p) 0);
    split; intros; try done; lia.
Qed.

Lemma rows_data_opaque img i j :
  rows_data (rows img) i j ↔ opaque_at img (Z.of_nat i) (Z.of_nat j).
Proof.
  unfold rows_data, row_data, opaque_at, getpixel. rewrite !Nat2Z.id. split.
  - intros (row & Hrow & p & Hp & Ha). split_and!; try lia.
    exists p. rewrite Hrow. simpl. split; [done|]. by apply has_alpha_true.
  - intros (_ & _ & p & Hp & Ha).
    destruct (rows img !! j) as [row|]; [|done]. simpl in Hp.
    exists row. split; [done|]. exists p. split; [done|].
    by apply has_alpha_true.
Qed.

Lemma opaque_rows_data img x y :
  opaque_at img x y ↔
  0 ≤ x ∧ 0 ≤ y ∧ rows_data (rows img) (Z.to_nat x) (Z.to_nat y).
Proof.
  rewrite rows_data_opaque. unfold opaque_at. rewrite !Nat2Z.id.
  split.
  - intros (Hx & Hy & Hp). split_and!; try lia; done.
  - intros (Hx & Hy & _ & _ & Hp). by split_and!.
Qed.

Lemma opaque_in_bounds img x y :
  wf_image img → opaque_at img x y →
  0 ≤ x < Z.of_nat (width img) ∧ 0 ≤ y < Z.of_nat (height img).
Proof.
  intros Hwf (Hx & Hy & p & Hp & _).
  assert (in_bounds img (Z.to_nat x) (Z.to_nat y)) as [? ?]
    by (apply getpixel_in_bounds; eauto).
  lia.
Qed.

(** [getbbox] returns [None] exactly on a fully transparent raster. *)
Lemma getbbox_None img :
  getbbox img = None ↔ ∀ x y, ¬ opaque_at img x y.
Proof.
  unfold getbbox.
  destruct (scan_rows 0 (rows img) (Z.of_nat (width img), -1, 0, 0))
    as [[[x0 y0] x1] y1] eqn:Hscan.
  apply scan_rows_spec in Hscan
    as (_ & _ & Hall & _ & _ & Hy0 & _ & Hpos); [|lia].
  destruct (Z.ltb_spec y0 0) as [Hneg|Hnn]; split; try done.
  - intros _ x y (Hx & Hy & Hd)%opaque_rows_data.
    assert (0 ≤ y0) by (apply Hpos; [eauto|lia]). lia.
  - intros Hnone. exfalso.
    destruct Hy0 as [->|(_ & i & j & Hd & _)]; [lia|].
    by apply rows_data_opaque, Hnone in Hd.
Qed.

(** A box returned by [getbbox] is the smallest box around the pixels that
    are not fully transparent. *)
Lemma getbbox_Some img b :
  wf_image img → getbbox img = Some b → bounding_box img b.
Proof.
  intros Hwf. unfold getbbox.
  destruct (scan_rows 0 (rows img) (Z.of_nat (width img), -1, 0, 0))
    as [[[x0 y0] x1] y1] eqn:Hscan.
  apply scan_rows_spec in Hscan
    as (_ & _ & Hall & Hx0 & Hx1 & Hy0 & Hy1 & Hpos); [|lia].
  destruct (Z.ltb_spec y0 0) as [Hneg|Hnn]; [done|].
  intros [= <-]. simpl.
  destruct Hy0 as [->|(_ & i0 & j0 & Hd0 & Hy0)]; [lia|].
  pose proof (Hall _ _ Hd0) as (Hxr & Hyr & _).
  pose proof (opaque_in_bounds img _ _ Hwf (proj1 (rows_data_opaque _ _ _) Hd0))
    as [Hi0 Hj0].
  split_and!.
  - intros x y (Hx & Hy & Hd)%opaque_rows_data.
    specialize (Hall _ _ Hd) as (? & ? & ?). lia.
  - destruct Hx0 as [->|(i & j & Hd & ->)]; [lia|].
    exists (Z.of_nat j). by apply rows_data_opaque.
  - destruct Hx1 as [->|(i & j & Hd & ->)]; [lia|].
    exists (Z.of_nat j). replace (Z.of_nat i + 1 - 1) with (Z.of_nat i) by lia.
    by apply rows_data_opaque.
  - exists (Z.of_nat i0). subst y0. rewrite Z.add_0_l.
    by apply rows_data_opaque.
  - destruct Hy1 as [->|(i & j & Hd & ->)]; [lia|].
    exists (Z.of_nat i). replace (0 + Z.of_nat j + 1 - 1) with (Z.of_nat j) by lia.
    by apply rows_data_opaque.
Qed.

Lemma bounding_box_unique img b b' :
  bounding_box img b → bounding_box img b' → b = b'.
Proof.
  destruct b as [[[x0 y0] x1] y1], b' as [[[x0' y0'] x1'] y1'].
  intros (Hall & [ya Ha] & [yb Hb] & [xc Hc] & [xd Hd])
         (Hall' & [ya' Ha'] & [yb' Hb'] & [xc' Hc'] & [xd' Hd']).
  pose proof (Hall _ _ Ha'). pose proof (Hall _ _ Hb').
  pose proof (Hall _ _ Hc'). pose proof (Hall _ _ Hd').
  pose proof (Hall' _ _ Ha). pose proof (Hall' _ _ Hb).
  pose proof (Hall' _ _ Hc). pose proof (Hall' _ _ Hd).
  repeat f_equal; lia.
Qed.

(** [getbbox] computes the bounding box, whenever there is one. *)
Lemma getbbox_bounding_box img b :
  wf_image img → bounding_box img b → getbbox img = Some b.
Proof.
  intros Hwf Hb. destruct (getbbox img) as [b'|] eqn:Hg.
  - f_equal. eapply bounding_box_unique; [|done]. by apply getbbox_Some.
  - exfalso. destruct b as [[[x0 y0] x1] y1].
    destruct Hb as (_ & [y Hy] & _).
    eapply (proj1 (getbbox_None img)); done.
Qed.

(** ** Crop *)

Lemma wf_raster w h f : wf_image (raster w h f).
Proof.
  split; simpl; [by rewrite length_map, length_seq|].
  apply Forall_fmap, Forall_forall. intros y _. simpl.
  by rewrite length_map, length_seq.
Qed.

Lemma getpixel_raster w h f x y :
  getpixel (raster w h f) x y =
  if decide (x < w ∧ y < h)%nat then Some (f x y) else None.
Proof.
  unfold getpixel, raster. simpl. rewrite list_lookup_fmap.
  destruct (decide (y < h)%nat) as [Hy|Hy].
  - rewrite lookup_seq_lt by done. simpl. rewrite list_lookup_fmap.
    destruct (decide (x < w)%nat) as [Hx|Hx].
    + rewrite lookup_seq_lt by done. simpl. by rewrite decide_True.
    + rewrite lookup_seq_ge by lia. simpl. rewrite decide_False; [done|tauto].
  - rewrite lookup_seq_ge by lia. simpl. rewrite decide_False; [done|tauto].
Qed.

Lemma alpha_pixel_or_zero img x y :
  alpha (pixel_or_zero img x y) ≠ 0 ↔ opaque_at img x y.
Proof.
  unfold pixel_or_zero, opaque_at.
  destruct (Z.leb_spec 0 x), (Z.leb_spec 0 y); simpl;
    try (split; [done|intros (? & ? & _); lia]).
  destruct (getpixel img (Z.to_nat x) (Z.to_nat y)) as [p|]; simpl.
  - split; [intros Ha; split_and!; eauto|].
    by intros (_ & _ & q & [= <-] & Ha).
  - split; [done|]. by intros (_ & _ & q & ? & _).
Qed.

Lemma pixel_or_zero_in_bounds img x y :
  wf_image img → in_bounds img x y →
  getpixel img x y = Some (pixel_or_zero img (Z.of_nat x) (Z.of_nat y)).
Proof.
  intros Hwf Hin. unfold pixel_or_zero.
  destruct (Z.leb_spec 0 (Z.of_nat x)), (Z.leb_spec 0 (Z.of_nat y)); try lia.
  simpl. rewrite !Nat2Z.id.
  by destruct (proj2 (getpixel_in_bounds img x y Hwf) Hin) as [p ->].
Qed.

Lemma crop_Some img l t r b :
  l ≤ r → t ≤ b →
  crop img (l, t, r, b) =
  Some (raster (Z.to_nat (r - l)) (Z.to_nat (b - t))
          (λ dx dy, pixel_or_zero img (l + Z.of_nat dx) (t + Z.of_nat dy))).
Proof.
  intros Hlr Htb. unfold crop.
  destruct (Z.ltb_spec r l); [lia|]. destruct (Z.ltb_spec b t); [lia|]. done.
Qed.

(** The pixels of a crop that are not fully transparent are those of the
    source inside the crop box, moved by the box origin. *)
Lemma opaque_crop img l t r b out x y :
  crop img (l, t, r, b) = Some out →
  opaque_at out x y ↔
  0 ≤ x < r - l ∧ 0 ≤ y < b - t ∧ opaque_at img (l + x) (t + y).
Proof.
  unfold crop. destruct (Z.ltb_spec r l); [done|].
  destruct (Z.ltb_spec b t); [done|]. intros [= <-].
  unfold opaque_at at 1. rewrite getpixel_raster. split.
  - intros (Hx & Hy & p & Hp & Ha). case_decide as Hd; [|done].
    inversion Hp; subst. rewrite !Z2Nat.id in Ha by done.
    apply alpha_pixel_or_zero in Ha. split_and!; try lia. done.
  - intros ([Hx Hx'] & [Hy Hy'] & Ho). split_and!; try done.
    eexists. rewrite decide_True by lia. split; [done|].
    rewrite !Z2Nat.id by done. by apply alpha_pixel_or_zero.
Qed.

(** Cropping to a box that contains the bounding box moves the bounding
    box by the origin of the crop and changes nothing else. *)
Lemma bounding_box_crop img l t r b out x0 y0 x1 y1 :
  bounding_box img (x0, y0, x1, y1) →
  l ≤ x0 → x1 ≤ r → t ≤ y0 → y1 ≤ b →
  crop img (l, t, r, b) = Some out →
  bounding_box out (x0 - l, y0 - t, x1 - l, y1 - t).
Proof.
  intros (Hall & [ya Ha] & [yb Hb] & [xc Hc] & [xd Hd]) Hl Hr Ht Hb' Hcrop.
  pose proof (Hall _ _ Ha). pose proof (Hall _ _ Hb).
  pose proof (Hall _ _ Hc). pose proof (Hall _ _ Hd).
  assert (∀ x y, opaque_at img x y → opaque_at out (x - l) (y - t)) as Hmove.
  { intros x y Ho. apply (opaque_crop _ _ _ _ _ _ _ _ Hcrop).
    pose proof (Hall _ _ Ho).
    replace (l + (x - l)) with x by lia. replace (t + (y - t)) with y by lia.
    split_and!; try lia. done. }
  simpl. split_and!.
  - intros x y Ho. apply (opaque_crop _ _ _ _ _ _ _ _ Hcrop) in Ho
      as (? & ? & Ho). apply Hall in Ho. lia.
  - exists (ya - t). by apply Hmove.
  - exists (yb - t). replace (x1 - l - 1) with (x1 - 1 - l) by lia.
    by apply Hmove.
  - exists (xc - l). by apply Hmove.
  - exists (xd - l). replace (y1 - t - 1) with (y1 - 1 - t) by lia.
    by apply Hmove.
Qed.

(** ** remove_dark_background *)

Lemma crop_box_contains w h b0 b1 b2 b3 :
  0 ≤ b0 → 0 ≤ b1 → b2 ≤ Z.of_nat w → b3 ≤ Z.of_nat h →
  crop_box w h (b0, b1, b2, b3) =
    (Z.max 0 (b0 - 5), Z.max 0 (b1 - 5),
     Z.min (Z.of_nat w) (b2 + 5), Z.min (Z.of_nat h) (b3 + 5)) ∧
  Z.max 0 (b0 - 5) ≤ b0 ∧ Z.max 0 (b1 - 5) ≤ b1 ∧
  b2 ≤ Z.min (Z.of_nat w) (b2 + 5) ∧ b3 ≤ Z.min (Z.of_nat h) (b3 + 5).
Proof. intros. unfold crop_box, padding. split; [done|lia]. Qed.

(** A bounding box lies inside the raster and is not empty. *)
Lemma bounding_box_in_image img b0 b1 b2 b3 :
  wf_image img → bounding_box img (b0, b1, b2, b3) →
  0 ≤ b0 < b2 ∧ b2 ≤ Z.of_nat (width img) ∧
  0 ≤ b1 < b3 ∧ b3 ≤ Z.of_nat (height img).
Proof.
  intros Hwf (Hall & [ya Ha] & [yb Hb] & [xc Hc] & [xd Hd]).
  pose proof (Hall _ _ Ha). pose proof (Hall _ _ Hc).
  pose proof (opaque_in_bounds _ _ _ Hwf Ha).
  pose proof (opaque_in_bounds _ _ _ Hwf Hb).
  pose proof (opaque_in_bounds _ _ _ Hwf Hc).
  pose proof (opaque_in_bounds _ _ _ Hwf Hd).
  lia.
Qed.

Lemma classification_pass_inv src img :
  wf_image src → classification_pass src = Some img →
  img = classify_image src ∧ wf_image img ∧
  width img = width src ∧ height img = height src.
Proof.
  intros Hwf. rewrite classification_pass_classify_image by done.
  intros [= <-]. split_and!; try done. by apply wf_classify_image.
Qed.

Lemma remove_dark_background_unfold src path img :
  classification_pass src = Some img →
  remove_dark_background src path =
  out ← crop_to_content (width src) (height src) img;
  Some (out, [(path, PNG out)]).
Proof. intros Hpass. unfold remove_dark_background. by rewrite Hpass. Qed.

Lemma classify_pixel_rule p :
  (keep_rule p → classify_pixel p = p) ∧
  (¬ keep_rule p → classify_pixel p = transparent_black).
Proof.
  unfold classify_pixel. pose proof (is_car_color_rule p) as Hrule.
  destruct (is_car_color p); split; intros Hr; try done.
  - exfalso. by apply Hr, Hrule.
  - by apply Hrule in Hr.
Qed.

(** The pixel the pass leaves at a coordinate of the image. *)
Lemma classification_pass_pixel src x y p :
  wf_image src → getpixel src x y = Some p →
  ∃ out, classification_pass src = Some out ∧
         getpixel out x y = Some (classify_pixel p).
Proof.
  intros Hwf Hp. exists (classify_image src).
  split; [by apply classification_pass_classify_image|].
  by rewrite getpixel_classify_image, Hp.
Qed.

(** C1, as amended.  After the classification pass a pixel that satisfies
    the rule (green > 100 and (green > red + 20 or blue > red + 20)) or
    (blue > 150 and green > 150) keeps its alpha, and a pixel that
    satisfies neither part has alpha exactly 0; so alpha is unchanged if
    and only if the rule holds or the alpha was 0 already. *)
Theorem classification_alpha src x y p :
  wf_image src → getpixel src x y = Some p →
  ∃ out p', classification_pass src = Some out ∧
    getpixel out x y = Some p' ∧
    (keep_rule p → alpha p' = alpha p) ∧
    (¬ keep_rule p → alpha p' = 0) ∧
    (alpha p' = alpha p ↔ keep_rule p ∨ alpha p = 0).
Proof.
  intros Hwf Hp.
  destruct (classification_pass_pixel src x y p Hwf Hp) as (out & Hpass & Hout).
  exists out, (classify_pixel p). split; [done|]. split; [done|].
  destruct (classify_pixel_rule p) as [Hkeep Hdrop].
  destruct (is_car_color p) eqn:Hc.
  - assert (keep_rule p) as Hr by by apply is_car_color_rule.
    rewrite (Hkeep Hr). split_and!; try done. split; [by left|done].
  - assert (¬ keep_rule p) as Hr.
    { intros Hr%is_car_color_rule. congruence. }
    rewrite (Hdrop Hr). simpl. split_and!; try done.
    split; [intros Ha; by right|]. intros [Hk | Ha]; [done|by rewrite Ha].
Qed.

(** C2, as amended.  A pixel classified as background is overwritten with
    (0, 0, 0, 0): its red, green and blue become 0 together with its
    alpha.  A pixel that satisfies the rule keeps all four channels. *)
Theorem classification_background_pixel src x y p :
  wf_image src → getpixel src x y = Some p →
  ∃ out p', classification_pass src = Some out ∧
    getpixel out x y = Some p' ∧
    (¬ keep_rule p → p' = Pixel 0 0 0 0) ∧
    (keep_rule p → p' = p).
Proof.
  intros Hwf Hp.
  destruct (classification_pass_pixel src x y p Hwf Hp) as (out & Hpass & Hout).
  exists out, (classify_pixel p). split; [done|]. split; [done|].
  destruct (classify_pixel_rule p) as [Hkeep Hdrop]. split; [apply Hdrop|apply Hkeep].
Qed.

(** C9.  The classification is per pixel and does not depend on the order
    of the traversal: the pixel left at a coordinate is [classify_pixel] of
    the pixel that was there, two images that agree at a coordinate give
    classified images that agree there, and every order that visits all
    the coordinates of the image gives the result of the nested loop. *)
Theorem classification_per_pixel src :
  wf_image src →
  ∃ out, classification_pass src = Some out ∧
    (∀ x y, getpixel out x y = classify_pixel <$> getpixel src x y) ∧
    (∀ src' out' x y,
        wf_image src' → classification_pass src' = Some out' →
        getpixel src x y = getpixel src' x y →
        getpixel out x y = getpixel out' x y) ∧
    (∀ order, traversal src order → classify_in_order order src = Some out).
Proof.
  intros Hwf. exists (classify_image src).
  split; [by apply classification_pass_classify_image|].
  split; [intros; apply getpixel_classify_image|]. split.
  - intros src' out' x y Hwf' Hpass' Heq.
    apply classification_pass_inv in Hpass' as (-> & _); [|done].
    by rewrite !getpixel_classify_image, Heq.
  - intros order Htr. by apply classify_in_order_traversal.
Qed.

Lemma classify_image_idemp img :
  classify_image (classify_image img) = classify_image img.
Proof.
  unfold classify_image. simpl. f_equal.
  rewrite map_map. apply map_ext. intros row.
  rewrite map_map. apply map_ext. apply classify_pixel_idemp.
Qed.

(** C10.  The classification pass is idempotent: run on its own result it
    returns that result; (0, 0, 0, 0) satisfies neither part of the rule
    and is written again, and a kept pixel is kept again. *)
Theorem classification_pass_idempotent src :
  wf_image src →
  ∃ once, classification_pass src = Some once ∧
          classification_pass once = Some once ∧
          classify_pixel transparent_black = transparent_black ∧
          ∀ p, is_car_color p = true →
               classify_pixel p = p ∧ is_car_color (classify_pixel p) = true.
Proof.
  intros Hwf. exists (classify_image src).
  split; [by apply classification_pass_classify_image|]. split.
  - rewrite classification_pass_classify_image by by apply wf_classify_image.
    by rewrite classify_image_idemp.
  - split; [done|]. intros p Hp. unfold classify_pixel. by rewrite Hp.
Qed.

(** With a bounding box, the function returns the crop to [crop_box],
    which lies between the bounding box and the image. *)
Lemma remove_dark_background_crops src path img b0 b1 b2 b3 :
  wf_image src →
  classification_pass src = Some img →
  getbbox img = Some (b0, b1, b2, b3) →
  let left := Z.max 0 (b0 - 5) in
  let top := Z.max 0 (b1 - 5) in
  let right := Z.min (Z.of_nat (width src)) (b2 + 5) in
  let bottom := Z.min (Z.of_nat (height src)) (b3 + 5) in
  crop_box (width src) (height src) (b0, b1, b2, b3) = (left, top, right, bottom) ∧
  (0 ≤ left ≤ b0 ∧ 0 ≤ top ≤ b1) ∧
  (b0 < b2 ≤ right ∧ b1 < b3 ≤ bottom) ∧
  (right ≤ Z.of_nat (width src) ∧ bottom ≤ Z.of_nat (height src)) ∧
  remove_dark_background src path =
    Some (raster (Z.to_nat (right - left)) (Z.to_nat (bottom - top))
            (λ dx dy, pixel_or_zero img (left + Z.of_nat dx) (top + Z.of_nat dy)),
          [(path,
            PNG (raster (Z.to_nat (right - left)) (Z.to_nat (bottom - top))
                   (λ dx dy, pixel_or_zero img (left + Z.of_nat dx)
                                           (top + Z.of_nat dy))))]) ∧
  crop img (left, top, right, bottom) =
    Some (raster (Z.to_nat (right - left)) (Z.to_nat (bottom - top))
            (λ dx dy, pixel_or_zero img (left + Z.of_nat dx) (top + Z.of_nat dy))).
Proof.
  intros Hwf Hpass Hbb left top right bottom.
  pose proof (classification_pass_inv src img Hwf Hpass) as (_ & Hwfi & Hw & Hh).
  pose proof (getbbox_Some img _ Hwfi Hbb) as Hbox.
  apply bounding_box_in_image in Hbox as (Hx & Hx' & Hy & Hy'); [|done].
  rewrite Hw in Hx'. rewrite Hh in Hy'.
  destruct (crop_box_contains (width src) (height src) b0 b1 b2 b3)
    as (Hcb & Hl & Ht & Hr & Hb); try lia.
  fold left top right bottom in Hcb, Hl, Ht, Hr, Hb.
  assert (left ≤ right) as Hlr by lia. assert (top ≤ bottom) as Htb by lia.
  pose proof (crop_Some img left top right bottom Hlr Htb) as Hcrop.
  split_and!; try done; try (unfold left, top, right, bottom; lia).
  rewrite (remove_dark_background_unfold src path img Hpass).
  unfold crop_to_content. by rewrite Hbb, Hcb, Hcrop.
Qed.

(** C3.  When the classified image has a bounding box (b0, b1, b2, b3),
    [remove_dark_background] returns the crop of the classified image to
    (max(0, b0 - 5), max(0, b1 - 5), min(width, b2 + 5),
    min(height, b3 + 5)): the box grown by 5 on each side and clamped.
    That rectangle lies inside the image, contains the bounding box, and
    the result has its size and its pixels. *)
Theorem crop_rectangle_padded_and_clamped src path img b0 b1 b2 b3 :
  wf_image src →
  classification_pass src = Some img →
  getbbox img = Some (b0, b1, b2, b3) →
  let left := Z.max 0 (b0 - 5) in
  let top := Z.max 0 (b1 - 5) in
  let right := Z.min (Z.of_nat (width src)) (b2 + 5) in
  let bottom := Z.min (Z.of_nat (height src)) (b3 + 5) in
  ∃ out,
    remove_dark_background src path = Some (out, [(path, PNG out)]) ∧
    crop img (left, top, right, bottom) = Some out ∧
    (0 ≤ left ∧ 0 ≤ top ∧
     right ≤ Z.of_nat (width src) ∧ bottom ≤ Z.of_nat (height src)) ∧
    (left ≤ b0 ∧ top ≤ b1 ∧ b2 ≤ right ∧ b3 ≤ bottom) ∧
    (Z.of_nat (width out) = right - left ∧
     Z.of_nat (height out) = bottom - top) ∧
    ∀ x y, in_bounds out x y →
           getpixel out x y =
           getpixel img (Z.to_nat left + x) (Z.to_nat top + y).
Proof.
  intros Hwf Hpass Hbb left top right bottom.
  pose proof (classification_pass_inv src img Hwf Hpass) as (_ & Hwfi & Hw & Hh).
  destruct (remove_dark_background_crops src path img b0 b1 b2 b3 Hwf Hpass Hbb)
    as (_ & Hlt & Hrb & Hin & Hrun & Hcrop).
  fold left top right bottom in Hlt, Hrb, Hin, Hrun, Hcrop.
  eexists. split; [exact Hrun|]. split; [exact Hcrop|].
  split; [lia|]. split; [lia|]. split; [simpl; lia|].
  intros x y [Hxo Hyo]. simpl in Hxo, Hyo. rewrite getpixel_raster.
  rewrite decide_True by done.
  rewrite (pixel_or_zero_in_bounds img) by
    (try done; unfold in_bounds; rewrite Hw, Hh; lia).
  f_equal. f_equal; lia.
Qed.

(** C4.  When no pixel of the input passes the rule, the classified image
    is fully transparent, [getbbox] returns [None], the crop is skipped
    and the returned image is the classified image, with the width and
    height of the input. *)
Theorem no_car_pixel_skips_crop src path :
  wf_image src →
  (∀ x y p, getpixel src x y = Some p → ¬ keep_rule p) →
  ∃ out,
    remove_dark_background src path = Some (out, [(path, PNG out)]) ∧
    classification_pass src = Some out ∧
    getbbox out = None ∧
    width out = width src ∧ height out = height src ∧
    ∀ x y, in_bounds out x y → getpixel out x y = Some transparent_black.
Proof.
  intros Hwf Hnone.
  pose proof (classification_pass_classify_image src Hwf) as Hpass.
  assert (∀ x y p, getpixel (classify_image src) x y = Some p →
                   p = transparent_black) as Hall.
  { intros x y p. rewrite getpixel_classify_image.
    destruct (getpixel src x y) as [q|] eqn:Hq; [|done]. simpl.
    intros [= <-]. by apply classify_pixel_rule, (Hnone x y). }
  assert (getbbox (classify_image src) = None) as Hbb.
  { apply getbbox_None. intros x y (_ & _ & p & Hp & Ha).
    apply Hall in Hp. by subst p. }
  exists (classify_image src). split_and!; try done.
  - rewrite (remove_dark_background_unfold src path _ Hpass).
    unfold crop_to_content. by rewrite Hbb.
  - intros x y Hin.
    destruct (proj2 (getpixel_in_bounds _ x y (wf_classify_image src Hwf)) Hin)
      as [p Hp].
    rewrite Hp. f_equal. by eapply Hall.
Qed.

(** C8.  When the classified image has a bounding box, the bounding box
    of the returned (cropped) image, moved back by the origin of the crop
    rectangle, is the bounding box of the classified image. *)
Theorem cropped_bounding_box_translates_back src path img bb :
  wf_image src →
  classification_pass src = Some img →
  getbbox img = Some bb →
  ∃ out bb',
    remove_dark_background src path = Some (out, [(path, PNG out)]) ∧
    getbbox out = Some bb' ∧
    translate (crop_box (width src) (height src) bb).1.1.1
              (crop_box (width src) (height src) bb).1.1.2 bb' = bb.
Proof.
  intros Hwf Hpass Hbb. destruct bb as [[[b0 b1] b2] b3].
  destruct (remove_dark_background_crops src path img b0 b1 b2 b3 Hwf Hpass Hbb)
    as (Hcb & [[_ Hl] [_ Ht]] & [[_ Hr] [_ Hb]] & _ & Hrun & Hcrop).
  pose proof (classification_pass_inv src img Hwf Hpass) as (_ & Hwfi & _).
  pose proof (getbbox_Some img _ Hwfi Hbb) as Hbox.
  apply (bounding_box_crop img _ _ _ _ _ _ _ _ _ Hbox Hl Hr Ht Hb) in Hcrop
    as Hbox'.
  eexists _, (b0 - Z.max 0 (b0 - 5), b1 - Z.max 0 (b1 - 5),
              b2 - Z.max 0 (b0 - 5), b3 - Z.max 0 (b1 - 5)).
  split; [exact Hrun|].
  split; [apply getbbox_bounding_box; [apply wf_raster|exact Hbox']|].
  rewrite Hcb. simpl. repeat f_equal; lia.
Qed.

(** [remove_dark_background] always returns, with a well-formed image
    that is no larger than the source and, like the source, not empty. *)
Lemma remove_dark_background_total src path :
  wf_image src →
  ∃ out, remove_dark_background src path = Some (out, [(path, PNG out)]) ∧
    wf_image out ∧
    (width out ≤ width src ∧ height out ≤ height src)%nat ∧
    ((0 < width src)%nat → (0 < height src)%nat →
     (0 < width out ∧ 0 < height out)%nat).
Proof.
  intros Hwf.
  pose proof (classification_pass_classify_image src Hwf) as Hpass.
  destruct (getbbox (classify_image src)) as [[[[b0 b1] b2] b3]|] eqn:Hbb.
  - destruct (remove_dark_background_crops src path _ b0 b1 b2 b3 Hwf Hpass Hbb)
      as (_ & Hlt & Hrb & Hin & Hrun & _).
    eexists. split; [exact Hrun|]. split; [apply wf_raster|]. simpl. lia.
  - exists (classify_image src). split.
    + rewrite (remove_dark_background_unfold src path _ Hpass).
      unfold crop_to_content. by rewrite Hbb.
    + split; [by apply wf_classify_image|]. simpl. lia.
Qed.

(** ** Thumbnail size *)

Lemma round_aspect_near q key :
  (0 < q)%Q →
  1 ≤ round_aspect q key ∧ round_aspect q key ≤ Qceiling q ∧
  (inject_Z (round_aspect q key) < q + 1)%Q ∧
  (q - 1 < inject_Z (round_aspect q key))%Q.
Proof.
  intros Hq. unfold round_aspect, min_by_key.
  pose proof (Qfloor_le q) as Hf1. pose proof (Qlt_floor q) as Hf2.
  pose proof (Qceiling_lt q) as Hc1. pose proof (Qle_ceiling q) as Hc2.
  rewrite inject_Z_plus in Hf2.
  unfold Z.sub in Hc1. rewrite inject_Z_plus, inject_Z_opp in Hc1.
  change (inject_Z 1) with 1%Q in *.
  assert (0 ≤ Qfloor q) as Hf0.
  { apply Z.lt_succ_r. rewrite Zlt_Qlt. unfold Z.succ. rewrite inject_Z_plus.
    change (inject_Z 0) with 0%Q. change (inject_Z 1) with 1%Q. lra. }
  assert (1 ≤ Qceiling q) as Hc0.
  { assert (0 < Qceiling q); [|lia]. rewrite Zlt_Qlt. change (inject_Z 0) with 0%Q. lra. }
  assert (Qfloor q ≤ Qceiling q) as Hfc
    by (rewrite Zle_Qle; apply Qle_floor_ceiling).
  destruct (Qle_bool _ _).
  - destruct (Z.max_spec (Qfloor q) 1) as [[Hlt ->]|[Hge ->]].
    + split_and!; try lia; change (inject_Z 1) with 1%Q; try lra.
      assert (Qfloor q = 0) as Hz by lia. rewrite Hz in Hf2.
      change (inject_Z 0) with 0%Q in Hf2. lra.
    + split_and!; try lia; lra.
  - rewrite Z.max_l by lia. split_and!; try lia; lra.
Qed.

Lemma Qnear_num r n d :
  (inject_Z r < (n # d) + 1)%Q → ((n # d) - 1 < inject_Z r)%Q →
  Z.abs (r * Z.pos d - n) < Z.pos d.
Proof.
  unfold Qlt, Qplus, Qminus, Qopp. simpl. intros H1 H2. lia.
Qed.

Lemma aspect_scaled_l b w h :
  0 < h →
  (inject_Z b * (inject_Z w / inject_Z h) == (b * w) # Z.to_pos h)%Q.
Proof.
  intros Hh. destruct h as [|p|p]; try lia. simpl.
  rewrite (Qmake_Qdiv (b * w) p), inject_Z_mult. field.
  intros Hz. inversion Hz.
Qed.

Lemma aspect_scaled_r b w h :
  0 < w → 0 < h →
  (inject_Z b / (inject_Z w / inject_Z h) == (b * h) # Z.to_pos w)%Q.
Proof.
  intros Hw Hh. destruct h as [|p|p]; try lia. destruct w as [|q|q]; try lia.
  simpl. rewrite (Qmake_Qdiv (b * Z.pos p) q), inject_Z_mult. field.
  split; intros Hz; inversion Hz.
Qed.

Lemma aspect_le_cross w h x y :
  0 < h → 0 < y →
  (inject_Z w / inject_Z h <= inject_Z x / inject_Z y)%Q ↔ w * y ≤ x * h.
Proof.
  intros Hh Hy. destruct h as [|p|p]; try lia. destruct y as [|q|q]; try lia.
  rewrite <- !Qmake_Qdiv. unfold Qle. simpl. done.
Qed.

Lemma round_aspect_quotient n d key :
  0 < n →
  1 ≤ round_aspect (n # d) key ∧
  Z.abs (round_aspect (n # d) key * Z.pos d - n) < Z.pos d.
Proof.
  intros Hn.
  destruct (round_aspect_near (n # d) key) as (H1 & _ & Hlt & Hgt).
  { unfold Qlt. simpl. lia. }
  split; [done|]. by apply Qnear_num.
Qed.

Lemma round_aspect_ext q q' key :
  (q == q')%Q → round_aspect q key = round_aspect q' key.
Proof.
  intros Heq. unfold round_aspect.
  by rewrite (Qfloor_comp _ _ Heq), (Qceiling_comp _ _ Heq).
Qed.

Lemma Qle_bool_aspect w h x y :
  0 < h → 0 < y →
  Qle_bool (inject_Z w / inject_Z h) (inject_Z x / inject_Z y) =
  (w * y <=? x * h).
Proof.
  intros Hh Hy. apply eq_true_iff_eq.
  by rewrite Qle_bool_iff, aspect_le_cross, Z.leb_le.
Qed.

Lemma preserve_aspect_ratio_fits bx by_ w h :
  0 < bx → 0 < by_ → 0 < w → 0 < h →
  ∃ fit, preserve_aspect_ratio bx by_ w h = Some fit ∧
    match fit with
    | None => w ≤ bx ∧ h ≤ by_
    | Some (x, y) =>
        ¬ (w ≤ bx ∧ h ≤ by_) ∧
        1 ≤ x ≤ bx ∧ 1 ≤ y ≤ by_ ∧ x ≤ w ∧ y ≤ h ∧
        ((w * by_ ≤ bx * h ∧ y = by_ ∧ Z.abs (x * h - by_ * w) < h) ∨
         (bx * h < w * by_ ∧ x = bx ∧ Z.abs (y * w - bx * h) < w))
    end.
Proof.
  intros Hbx Hby Hw Hh. unfold preserve_aspect_ratio.
  destruct ((bx >=? w) && (by_ >=? h)) eqn:Hfit.
  { exists None. split; [done|].
    apply andb_true_iff in Hfit. rewrite !Z.geb_leb, !Z.leb_le in Hfit. done. }
  assert (¬ (w ≤ bx ∧ h ≤ by_)) as Hbig.
  { intros [? ?]. apply andb_false_iff in Hfit.
    rewrite !Z.geb_leb, !Z.leb_gt in Hfit. lia. }
  rewrite (proj2 (Z.eqb_neq h 0)), (proj2 (Z.eqb_neq by_ 0)) by lia.
  rewrite Qle_bool_aspect by done.
  destruct (Z.leb_spec (w * by_) (bx * h)) as [Hcmp|Hcmp].
  - set (key := λ n : Z, Qabs _).
    rewrite (round_aspect_ext _ _ key (aspect_scaled_l by_ w h Hh)).
    destruct (round_aspect_quotient (by_ * w) (Z.to_pos h) key) as [H1 H2];
      [nia|].
    rewrite Z2Pos.id in H2 by lia.
    eexists. split; [done|]. simpl.
    split_and!; try done; nia.
  - set (key := λ n : Z, if n =? 0 then _ else _).
    rewrite (round_aspect_ext _ _ key (aspect_scaled_r bx w h Hw Hh)).
    destruct (round_aspect_quotient (bx * h) (Z.to_pos w) key) as [H1 H2];
      [nia|].
    rewrite Z2Pos.id in H2 by lia.
    eexists. split; [done|]. simpl.
    split_and!; try done; nia.
Qed.

(** ** Resize, thumbnail and the exporters *)

Section Exporters.

Variable resample : image → nat → nat → nat → nat → pixel.

(** [resize] to a size with no zero side returns an image of exactly
    that size. *)
Lemma resize_exact img w h :
  (0 < w)%nat → (0 < h)%nat →
  ∃ r, resize resample img (w, h) = Some (Image w h r) ∧
       (wf_image img → wf_image (Image w h r)).
Proof.
  intros Hw Hh. unfold resize.
  destruct (decide ((width img, height img) = (w, h))) as [Heq|Hne].
  - exists (rows img). inversion Heq; subst. by destruct img.
  - rewrite decide_False by lia. eexists. split; [done|].
    intros _. apply wf_raster.
Qed.

(** The size of a thumbnail: the image itself when it fits the box, else
    an image that fits the box, is no larger than the source, touches
    the box on one side and has the other side within one pixel of the
    proportional value. *)
Lemma thumbnail_fits img bx by_ :
  (0 < bx)%nat → (0 < by_)%nat →
  (0 < width img)%nat → (0 < height img)%nat →
  ∃ out, thumbnail resample img (bx, by_) = Some out ∧
    ((width img ≤ bx ∧ height img ≤ by_)%nat → out = img) ∧
    (1 ≤ width out ≤ bx ∧ 1 ≤ height out ≤ by_)%nat ∧
    (width out ≤ width img ∧ height out ≤ height img)%nat ∧
    (¬ (width img ≤ bx ∧ height img ≤ by_)%nat →
     (width out = bx ∨ height out = by_) ∧
     Z.abs (Z.of_nat (width out) * Z.of_nat (height img) -
            Z.of_nat (height out) * Z.of_nat (width img))
       < Z.max (Z.of_nat (width img)) (Z.of_nat (height img))).
Proof.
  intros Hbx Hby Hw Hh. unfold thumbnail.
  destruct (preserve_aspect_ratio_fits (Z.of_nat bx) (Z.of_nat by_)
              (Z.of_nat (width img)) (Z.of_nat (height img)))
    as (fit & Hfit & Hspec); try lia.
  rewrite Hfit. cbn -[resize]. destruct fit as [[x y]|].
  - destruct Hspec as (Hbig & Hx & Hy & Hxw & Hyh & Hcase).
    destruct (resize_exact img (Z.to_nat x) (Z.to_nat y)) as (r & -> & _);
      try lia.
    eexists. split; [done|]. simpl. split_and!; try lia.
  - exists img. split; [done|]. split_and!; try done; lia.
Qed.

Lemma save_png_sizes_exact img dir :
  ∃ r16 r32 r192 r180,
    save_png_sizes resample img dir =
    Some [ (os_path_join dir "favicon-16x16.png", PNG (Image 16 16 r16));
           (os_path_join dir "favicon-32x32.png", PNG (Image 32 32 r32));
           (os_path_join dir "favicon-192x192.png", PNG (Image 192 192 r192));
           (os_path_join dir "apple-touch-icon.png", PNG (Image 180 180 r180)) ].
Proof.
  destruct (resize_exact img 16 16) as (r16 & H16 & _); try lia.
  destruct (resize_exact img 32 32) as (r32 & H32 & _); try lia.
  destruct (resize_exact img 192 192) as (r192 & H192 & _); try lia.
  destruct (resize_exact img 180 180) as (r180 & H180 & _); try lia.
  exists r16, r32, r192, r180. unfold save_png_sizes, sizes.
  cbn [mapM]. rewrite H16, H32, H192, H180. reflexivity.
Qed.

Lemma make_ico_images_exact img :
  ∃ r16 r32 r48,
    make_ico_images resample img =
    Some [Image 16 16 r16; Image 32 32 r32; Image 48 48 r48].
Proof.
  destruct (resize_exact img 16 16) as (r16 & H16 & _); try lia.
  destruct (resize_exact img 32 32) as (r32 & H32 & _); try lia.
  destruct (resize_exact img 48 48) as (r48 & H48 & _); try lia.
  exists r16, r32, r48. unfold make_ico_images, ico_sizes.
  cbn [mapM]. rewrite H16, H32, H48. reflexivity.
Qed.

(** Saved from the 16 by 16 image, the encoder keeps the 16 by 16 frame
    alone: 32 and 48 exceed the size of the image [save] is called on. *)
Lemma ico_frames_from_smallest r16 r32 r48 :
  ico_frames resample (Image 16 16 r16)
    [(16, 16); (32, 32); (48, 48)]%nat
    [Image 32 32 r32; Image 48 48 r48] =
  Some [Image 16 16 r16].
Proof. reflexivity. Qed.

(** What [create_favicon_sizes] writes, for every input. *)
Lemma create_favicon_sizes_written img dir :
  ∃ r16 r32 r192 r180 i16 i32 i48,
    make_ico_images resample img =
      Some [Image 16 16 i16; Image 32 32 i32; Image 48 48 i48] ∧
    create_favicon_sizes resample img dir =
      Some [ (os_path_join dir "favicon-16x16.png", PNG (Image 16 16 r16));
             (os_path_join dir "favicon-32x32.png", PNG (Image 32 32 r32));
             (os_path_join dir "favicon-192x192.png", PNG (Image 192 192 r192));
             (os_path_join dir "apple-touch-icon.png", PNG (Image 180 180 r180));
             (os_path_join dir "favicon.ico", ICO [Image 16 16 i16]) ].
Proof.
  destruct (save_png_sizes_exact img dir) as (r16 & r32 & r192 & r180 & Hpng).
  destruct (make_ico_images_exact img) as (i16 & i32 & i48 & Hico).
  exists r16, r32, r192, r180, i16, i32, i48. split; [exact Hico|].
  unfold create_favicon_sizes. rewrite Hpng, Hico.
  cbn -[ico_frames os_path_join]. by rewrite ico_frames_from_smallest.
Qed.

(** The same, with each image written tied to the exact resize of the
    input it comes from. *)
Lemma create_favicon_sizes_resizes img dir :
  ∃ p16 p32 p192 p180,
    resize resample img (16, 16)%nat = Some p16 ∧
    resize resample img (32, 32)%nat = Some p32 ∧
    resize resample img (192, 192)%nat = Some p192 ∧
    resize resample img (180, 180)%nat = Some p180 ∧
    (size_of p16 = (16, 16)%nat ∧ size_of p32 = (32, 32)%nat ∧
     size_of p192 = (192, 192)%nat ∧ size_of p180 = (180, 180)%nat) ∧
    create_favicon_sizes resample img dir =
      Some [ (os_path_join dir "favicon-16x16.png", PNG p16);
             (os_path_join dir "favicon-32x32.png", PNG p32);
             (os_path_join dir "favicon-192x192.png", PNG p192);
             (os_path_join dir "apple-touch-icon.png", PNG p180);
             (os_path_join dir "favicon.ico", ICO [p16]) ].
Proof.
  destruct (resize_exact img 16 16) as (r16 & H16 & _); try lia.
  destruct (resize_exact img 32 32) as (r32 & H32 & _); try lia.
  destruct (resize_exact img 192 192) as (r192 & H192 & _); try lia.
  destruct (resize_exact img 180 180) as (r180 & H180 & _); try lia.
  destruct (resize_exact img 48 48) as (r48 & H48 & _); try lia.
  exists (Image 16 16 r16), (Image 32 32 r32), (Image 192 192 r192),
    (Image 180 180 r180).
  split_and!; try done.
  unfold create_favicon_sizes, save_png_sizes, make_ico_images, sizes, ico_sizes.
  cbn [mapM]. rewrite H16, H32, H192, H180, H48.
  cbn -[ico_frames os_path_join]. by rewrite ico_frames_from_smallest.
Qed.

(** The whole run completes on every non-empty source image and writes
    seven files. *)
Lemma main_total src :
  wf_image src → (0 < width src)%nat → (0 < height src)%nat →
  ∃ written, main resample src = Some written ∧ length written = 7%nat.
Proof.
  intros Hwf Hw Hh. unfold main.
  destruct (remove_dark_background_total src
              "client/public/car-logo-transparent.png" Hwf)
    as (out & -> & Hwfo & _ & Hpos).
  destruct (Hpos Hw Hh) as [Hwo Hho].
  destruct (thumbnail_fits out 128 128) as (fav & Hthumb & _); try lia.
  destruct (create_favicon_sizes_written out "client/public")
    as (r16 & r32 & r192 & r180 & i16 & i32 & i48 & _ & Hsizes).
  cbn -[create_favicon create_favicon_sizes]. unfold create_favicon.
  rewrite Hthumb. cbn -[create_favicon_sizes]. rewrite Hsizes.
  eexists. split; reflexivity.
Qed.

End Exporters.

(** ** The exporters *)

Section ExporterClaims.

Variable resample : image → nat → nat → nat → nat → pixel.




(** C7, on the code.  [favicon.ico] is saved from the 16 by 16 image
    with the sizes 16, 32 and 48 requested and the 32 and 48 images
    appended; the encoder drops the sizes larger than the image it is
    saved from, so for every input the file holds one frame, 16 by 16,
    and not three. *)
Theorem favicon_ico_holds_one_frame img dir :
  ∃ ico_images pngs frame,
    make_ico_images resample img = Some ico_images ∧
    map size_of ico_images = [(16, 16); (32, 32); (48, 48)]%nat ∧
    create_favicon_sizes resample img dir =
      Some (pngs ++ [(os_path_join dir "favicon.ico", ICO [frame])]) ∧
    size_of frame = (16, 16)%nat.
Proof.
  destruct (create_favicon_sizes_written resample img dir)
    as (r16 & r32 & r192 & r180 & i16 & i32 & i48 & Hico & Hrun).
  exists [Image 16 16 i16; Image 32 32 i32; Image 48 48 i48],
    [ (os_path_join dir "favicon-16x16.png", PNG (Image 16 16 r16));
      (os_path_join dir "favicon-32x32.png", PNG (Image 32 32 r32));
      (os_path_join dir "favicon-192x192.png", PNG (Image 192 192 r192));
      (os_path_join dir "apple-touch-icon.png", PNG (Image 180 180 r180)) ],
    (Image 16 16 i16).
  split; [exact Hico|]. split; [reflexivity|]. split; [exact Hrun|reflexivity].
Qed.

End ExporterClaims.

(** * The claims on concrete inputs *)

(** C1 as stated fails: a pixel that is already fully transparent and
    fails the rule keeps its alpha (0). *)
Lemma alpha_unchanged_iff_rule_fails : ¬ alpha_unchanged_iff_rule clear_gray_pixel.
Proof.
  intros Hclaim.
  destruct (Hclaim (Image 1 1 [[Pixel 0 0 0 0]]) 0%nat 0%nat
              (Pixel 20 20 20 0) (Pixel 0 0 0 0) eq_refl eq_refl eq_refl)
    as [Hkeep _].
  specialize (Hkeep eq_refl). unfold keep_rule in Hkeep. simpl in Hkeep. lia.
Qed.

Lemma classification_alpha_witness :
  wf_image clear_gray_pixel ∧
  getpixel clear_gray_pixel 0 0 = Some (Pixel 20 20 20 0) ∧
  ∃ out p', classification_pass clear_gray_pixel = Some out ∧
    getpixel out 0 0 = Some p' ∧
    (keep_rule (Pixel 20 20 20 0) → alpha p' = 0) ∧
    (¬ keep_rule (Pixel 20 20 20 0) → alpha p' = 0) ∧
    (alpha p' = 0 ↔ keep_rule (Pixel 20 20 20 0) ∨ 0 = 0).
Proof.
  assert (wf_image clear_gray_pixel) as Hwf
    by (apply wf_imageb_true; reflexivity).
  split; [exact Hwf|]. split; [reflexivity|].
  exact (classification_alpha clear_gray_pixel 0 0 (Pixel 20 20 20 0)
           Hwf eq_refl).
Defined.

(** C2 as stated fails: an opaque dark gray pixel is background and its
    red channel goes from 20 to 0. *)
Lemma background_keeps_rgb_fails : ¬ background_keeps_rgb gray_pixel.
Proof.
  intros Hclaim.
  destruct (Hclaim (Image 1 1 [[Pixel 0 0 0 0]]) 0%nat 0%nat
              (Pixel 20 20 20 255) (Pixel 0 0 0 0) eq_refl eq_refl eq_refl)
    as [Hred _].
  - unfold keep_rule. simpl. lia.
  - discriminate Hred.
Qed.

Lemma classification_background_pixel_witness :
  wf_image gray_pixel ∧
  getpixel gray_pixel 0 0 = Some (Pixel 20 20 20 255) ∧
  ∃ out p', classification_pass gray_pixel = Some out ∧
    getpixel out 0 0 = Some p' ∧
    (¬ keep_rule (Pixel 20 20 20 255) → p' = Pixel 0 0 0 0) ∧
    (keep_rule (Pixel 20 20 20 255) → p' = Pixel 20 20 20 255).
Proof.
  assert (wf_image gray_pixel) as Hwf
    by (apply wf_imageb_true; reflexivity).
  split; [exact Hwf|]. split; [reflexivity|].
  exact (classification_background_pixel gray_pixel 0 0 (Pixel 20 20 20 255)
           Hwf eq_refl).
Defined.

Lemma classification_per_pixel_witness :
  wf_image car_on_gray ∧
  ∃ out, classification_pass car_on_gray = Some out ∧
    (∀ x y, getpixel out x y = classify_pixel <$> getpixel car_on_gray x y) ∧
    (∀ src' out' x y,
        wf_image src' → classification_pass src' = Some out' →
        getpixel car_on_gray x y = getpixel src' x y →
        getpixel out x y = getpixel out' x y) ∧
    (∀ order, traversal car_on_gray order →
              classify_in_order order car_on_gray = Some out).
Proof.
  assert (wf_image car_on_gray) as Hwf by apply wf_raster.
  split; [exact Hwf|]. exact (classification_per_pixel car_on_gray Hwf).
Defined.

Lemma classification_pass_idempotent_witness :
  wf_image car_on_gray ∧
  ∃ once, classification_pass car_on_gray = Some once ∧
          classification_pass once = Some once ∧
          classify_pixel transparent_black = transparent_black ∧
          ∀ p, is_car_color p = true →
               classify_pixel p = p ∧ is_car_color (classify_pixel p) = true.
Proof.
  assert (wf_image car_on_gray) as Hwf by apply wf_raster.
  split; [exact Hwf|]. exact (classification_pass_idempotent car_on_gray Hwf).
Defined.

Lemma cropped_bounding_box_translates_back_witness :
  wf_image car_on_gray ∧
  classification_pass car_on_gray = Some (classify_image car_on_gray) ∧
  getbbox (classify_image car_on_gray) = Some (9, 7, 11, 9) ∧
  ∃ out bb',
    remove_dark_background car_on_gray "logo.png" =
      Some (out, [("logo.png"%string, PNG out)]) ∧
    getbbox out = Some bb' ∧
    translate 4 2 bb' = (9, 7, 11, 9).
Proof.
  assert (wf_image car_on_gray) as Hwf by apply wf_raster.
  split; [exact Hwf|]. split; [reflexivity|]. split; [reflexivity|].
  exact (cropped_bounding_box_translates_back car_on_gray "logo.png"
           (classify_image car_on_gray) (9, 7, 11, 9) Hwf eq_refl eq_refl).
Defined.

Lemma crop_rectangle_padded_and_clamped_witness :
  wf_image car_on_gray ∧
  classification_pass car_on_gray = Some (classify_image car_on_gray) ∧
  getbbox (classify_image car_on_gray) = Some (9, 7, 11, 9) ∧
  ∃ out,
    remove_dark_background car_on_gray "logo.png" =
      Some (out, [("logo.png"%string, PNG out)]) ∧
    crop (classify_image car_on_gray) (4, 2, 16, 12) = Some out ∧
    (0 ≤ 4 ∧ 0 ≤ 2 ∧ 16 ≤ 16 ∧ 12 ≤ 12) ∧
    (4 ≤ 9 ∧ 2 ≤ 7 ∧ 11 ≤ 16 ∧ 9 ≤ 12) ∧
    (Z.of_nat (width out) = 16 - 4 ∧ Z.of_nat (height out) = 12 - 2) ∧
    ∀ x y, in_bounds out x y →
           getpixel out x y =
           getpixel (classify_image car_on_gray) (4 + x) (2 + y).
Proof.
  assert (wf_image car_on_gray) as Hwf by apply wf_raster.
  split; [exact Hwf|]. split; [reflexivity|]. split; [reflexivity|].
  exact (crop_rectangle_padded_and_clamped car_on_gray "logo.png"
           (classify_image car_on_gray) 9 7 11 9 Hwf eq_refl eq_refl).
Defined.

Lemma no_car_pixel_skips_crop_witness :
  wf_image gray_strip ∧
  (∀ x y p, getpixel gray_strip x y = Some p → ¬ keep_rule p) ∧
  ∃ out,
    remove_dark_background gray_strip "logo.png" =
      Some (out, [("logo.png"%string, PNG out)]) ∧
    classification_pass gray_strip = Some out ∧
    getbbox out = None ∧
    width out = 2%nat ∧ height out = 1%nat ∧
    ∀ x y, in_bounds out x y → getpixel out x y = Some transparent_black.
Proof.
  assert (wf_image gray_strip) as Hwf
    by (apply wf_imageb_true; reflexivity).
  assert (∀ x y p, getpixel gray_strip x y = Some p → ¬ keep_rule p) as Hnone.
  { intros x y p Hp Hr. apply is_car_color_rule in Hr.
    destruct y as [|y]; [|discriminate Hp].
    destruct x as [|[|x]]; [| |discriminate Hp];
      inversion Hp; subst p; discriminate Hr. }
  split; [exact Hwf|]. split; [exact Hnone|].
  exact (no_car_pixel_skips_crop gray_strip "logo.png" Hwf Hnone).
Defined.


(** * Further properties of the script *)

(** ** What remove_dark_background returns *)

(** The bounding box of the crop the function returns. *)
Lemma remove_dark_background_crops_bbox src img b0 b1 b2 b3 :
  wf_image src →
  classification_pass src = Some img →
  getbbox img = Some (b0, b1, b2, b3) →
  let left := Z.max 0 (b0 - 5) in
  let top := Z.max 0 (b1 - 5) in
  let right := Z.min (Z.of_nat (width src)) (b2 + 5) in
  let bottom := Z.min (Z.of_nat (height src)) (b3 + 5) in
  getbbox (raster (Z.to_nat (right - left)) (Z.to_nat (bottom - top))
             (λ dx dy, pixel_or_zero img (left + Z.of_nat dx)
                                     (top + Z.of_nat dy))) =
  Some (b0 - left, b1 - top, b2 - left, b3 - top).
Proof.
  intros Hwf Hpass Hbb left top right bottom.
  destruct (remove_dark_background_crops src EmptyString img b0 b1 b2 b3
              Hwf Hpass Hbb)
    as (_ & [[_ Hl] [_ Ht]] & [[_ Hr] [_ Hb]] & _ & _ & Hcrop).
  pose proof (classification_pass_inv src img Hwf Hpass) as (_ & Hwfi & _).
  pose proof (getbbox_Some img _ Hwfi Hbb) as Hbox.
  apply getbbox_bounding_box; [apply wf_raster|].
  exact (bounding_box_crop img _ _ _ _ _ _ _ _ _ Hbox Hl Hr Ht Hb Hcrop).
Qed.

(** A pixel of the source that passes the rule and is not fully
    transparent is still there, and counted by [getbbox], after the
    pass. *)
Lemma visible_car_pixel_opaque src x y p :
  getpixel src x y = Some p → keep_rule p → alpha p ≠ 0 →
  opaque_at (classify_image src) (Z.of_nat x) (Z.of_nat y).
Proof.
  intros Hp Hkeep Ha. split; [lia|]. split; [lia|]. exists p.
  rewrite !Nat2Z.id, getpixel_classify_image, Hp. simpl.
  by rewrite (proj1 (classify_pixel_rule p) Hkeep).
Qed.

Lemma opaque_classified src x y :
  opaque_at (classify_image src) x y →
  ∃ p, getpixel src (Z.to_nat x) (Z.to_nat y) = Some p ∧
       keep_rule p ∧ alpha p ≠ 0.
Proof.
  intros (_ & _ & q & Hq & Ha). rewrite getpixel_classify_image in Hq.
  destruct (getpixel src (Z.to_nat x) (Z.to_nat y)) as [p|]; [|done].
  simpl in Hq. inversion Hq; subst q. exists p. split; [done|].
  destruct (classify_pixel_rule p) as [Hkeep Hdrop].
  unfold classify_pixel in *. destruct (is_car_color p) eqn:Hc.
  - split; [by apply is_car_color_rule|done].
  - done.
Qed.

(** The returned image is a window of the classified source: it has the
    pixels of the classified source from an offset [(dx, dy)] on, and no
    visible car pixel of the source lies outside it. *)
Lemma remove_dark_background_window src path :
  wf_image src →
  ∃ out dx dy,
    remove_dark_background src path = Some (out, [(path, PNG out)]) ∧
    wf_image out ∧
    (dx + width out ≤ width src ∧ dy + height out ≤ height src)%nat ∧
    (∀ x y, in_bounds out x y →
            getpixel out x y = classify_pixel <$> getpixel src (dx + x) (dy + y)) ∧
    (∀ x y p, getpixel src x y = Some p → keep_rule p → alpha p ≠ 0 →
              (dx ≤ x < dx + width out ∧ dy ≤ y < dy + height out)%nat).
Proof.
  intros Hwf.
  pose proof (classification_pass_classify_image src Hwf) as Hpass.
  pose proof (wf_classify_image src Hwf) as Hwfi.
  destruct (getbbox (classify_image src)) as [[[[b0 b1] b2] b3]|] eqn:Hbb.
  - destruct (remove_dark_background_crops src path _ b0 b1 b2 b3 Hwf Hpass Hbb)
      as (_ & Hlt & Hrb & Hin & Hrun & _).
    pose proof (getbbox_Some _ _ Hwfi Hbb) as [Hall _].
    eexists _, (Z.to_nat (Z.max 0 (b0 - 5))), (Z.to_nat (Z.max 0 (b1 - 5))).
    split; [exact Hrun|]. split; [apply wf_raster|].
    split; [simpl; lia|]. split.
    + intros x y [Hx Hy]. simpl in Hx, Hy.
      rewrite getpixel_raster, decide_True by done.
      rewrite <- getpixel_classify_image.
      rewrite (pixel_or_zero_in_bounds (classify_image src)) by
        (try done; unfold in_bounds; simpl; lia).
      f_equal. f_equal; lia.
    + intros x y p Hp Hkeep Ha.
      pose proof (Hall _ _ (visible_car_pixel_opaque src x y p Hp Hkeep Ha))
        as Hbox.
      simpl. lia.
  - exists (classify_image src), 0%nat, 0%nat. split.
    { rewrite (remove_dark_background_unfold src path _ Hpass).
      unfold crop_to_content. by rewrite Hbb. }
    split; [done|]. split; [simpl; lia|]. split.
    + intros x y _. apply getpixel_classify_image.
    + intros x y p Hp Hkeep Ha. exfalso.
      eapply (proj1 (getbbox_None _) Hbb).
      exact (visible_car_pixel_opaque src x y p Hp Hkeep Ha).
Qed.

Lemma classify_image_fixed out :
  wf_image out →
  (∀ x y p, getpixel out x y = Some p → classify_pixel p = p) →
  classify_image out = out.
Proof.
  intros Hwf Hfix. apply image_ext; try done; [by apply wf_classify_image|].
  intros x y. rewrite getpixel_classify_image.
  destruct (getpixel out x y) as [p|] eqn:Hp; [|done].
  simpl. f_equal. by eapply Hfix.
Qed.

Lemma classify_pixel_or_zero src x y :
  classify_pixel (pixel_or_zero (classify_image src) x y) =
  pixel_or_zero (classify_image src) x y.
Proof.
  unfold pixel_or_zero. destruct ((0 <=? x) && (0 <=? y)); [|done].
  rewrite getpixel_classify_image.
  destruct (getpixel src (Z.to_nat x) (Z.to_nat y)); simpl; [|done].
  apply classify_pixel_idemp.
Qed.

(** Cropping to the whole raster copies the image. *)
Lemma crop_whole img :
  wf_image img →
  crop img (0, 0, Z.of_nat (width img), Z.of_nat (height img)) = Some img.
Proof.
  intros Hwf. rewrite crop_Some by lia. f_equal.
  apply image_ext; try done; try apply wf_raster; simpl; try lia.
  intros x y. rewrite getpixel_raster.
  destruct (decide (x < Z.to_nat (Z.of_nat (width img) - 0) ∧
                    y < Z.to_nat (Z.of_nat (height img) - 0))%nat) as [Hin|Hout].
  - by rewrite (pixel_or_zero_in_bounds img x y Hwf), !Z.add_0_l
      by (unfold in_bounds; lia).
  - symmetry. apply eq_None_not_Some. rewrite getpixel_in_bounds by done.
    unfold in_bounds. lia.
Qed.

(** On its own result the function finds nothing left to remove or to
    cut. *)
Lemma remove_dark_background_again out path :
  wf_image out →
  (∀ x y p, getpixel out x y = Some p → classify_pixel p = p) →
  (∀ c0 c1 c2 c3, getbbox out = Some (c0, c1, c2, c3) →
                  c0 ≤ 5 ∧ c1 ≤ 5 ∧
                  Z.of_nat (width out) ≤ c2 + 5 ∧
                  Z.of_nat (height out) ≤ c3 + 5) →
  remove_dark_background out path = Some (out, [(path, PNG out)]).
Proof.
  intros Hwf Hfix Hmargin.
  assert (classification_pass out = Some out) as Hpass.
  { rewrite classification_pass_classify_image by done.
    by rewrite classify_image_fixed. }
  rewrite (remove_dark_background_unfold out path out Hpass).
  unfold crop_to_content.
  destruct (getbbox out) as [[[[c0 c1] c2] c3]|] eqn:Hbb; [|done].
  destruct (Hmargin _ _ _ _ eq_refl) as (H0 & H1 & H2 & H3).
  apply getbbox_Some, bounding_box_in_image in Hbb as (? & ? & ? & ?);
    try done.
  unfold crop_box, padding.
  rewrite (Z.max_l 0 (c0 - 5)), (Z.max_l 0 (c1 - 5)) by lia.
  rewrite (Z.min_l (Z.of_nat (width out))), (Z.min_l (Z.of_nat (height out)))
    by lia.
  by rewrite crop_whole.
Qed.

(** X1.  On a well-formed image the classification loop never indexes
    outside the raster: it completes, and the image keeps its width and
    height and stays well formed. *)
Theorem classification_pass_completes src :
  wf_image src →
  ∃ out, classification_pass src = Some out ∧ wf_image out ∧
         width out = width src ∧ height out = height src.
Proof.
  intros Hwf. exists (classify_image src).
  split; [by apply classification_pass_classify_image|].
  split; [by apply wf_classify_image|]. by split.
Qed.

(** X2.  On a well-formed image the loop and the crop step of
    [remove_dark_background] (lines 12-38) raise nothing: the crop
    rectangle is never inverted.  The image they hand to [save] is well
    formed, no larger than the source in either dimension and not empty
    when the source is not, and it is the image the function returns and
    saves whenever it returns.  Nothing is said of the save itself. *)
Theorem classify_and_crop_never_raise src :
  wf_image src →
  ∃ img out,
    classification_pass src = Some img ∧
    crop_to_content (width src) (height src) img = Some out ∧
    wf_image out ∧
    (width out ≤ width src ∧ height out ≤ height src)%nat ∧
    ((0 < width src)%nat → (0 < height src)%nat →
     (0 < width out ∧ 0 < height out)%nat) ∧
    ∀ path res, remove_dark_background src path = Some res →
                res = (out, [(path, PNG out)]).
Proof.
  intros Hwf.
  pose proof (classification_pass_classify_image src Hwf) as Hpass.
  destruct (remove_dark_background_total src EmptyString Hwf)
    as (out & Hrun & Hwfo & Hle & Hpos).
  rewrite (remove_dark_background_unfold src _ _ Hpass) in Hrun.
  destruct (crop_to_content (width src) (height src) (classify_image src))
    as [out'|] eqn:Hcrop; [|done].
  simpl in Hrun. inversion Hrun; subst out'.
  exists (classify_image src), out.
  split; [done|]. split; [done|]. split; [done|]. split; [done|].
  split; [done|]. intros path res Hres.
  rewrite (remove_dark_background_unfold src _ _ Hpass), Hcrop in Hres.
  simpl in Hres. by inversion Hres.
Qed.

(** X3.  Every pixel of the returned image is either (0, 0, 0, 0) or a
    pixel of the source that satisfies the rule, with its four channels
    as they were: nothing that fails the rule is left visible, and no
    colour is invented. *)
Theorem returned_pixels_clear_or_car src path :
  wf_image src →
  ∃ out, remove_dark_background src path = Some (out, [(path, PNG out)]) ∧
    ∀ x y p, getpixel out x y = Some p →
      p = Pixel 0 0 0 0 ∨
      (keep_rule p ∧ ∃ x' y', getpixel src x' y' = Some p).
Proof.
  intros Hwf.
  destruct (remove_dark_background_window src path Hwf)
    as (out & dx & dy & Hrun & Hwfo & _ & Hpix & _).
  exists out. split; [done|]. intros x y p Hp.
  assert (in_bounds out x y) as Hin by (apply getpixel_in_bounds; eauto).
  rewrite (Hpix x y Hin) in Hp.
  destruct (getpixel src (dx + x) (dy + y)) as [q|] eqn:Hq; [|done].
  simpl in Hp. inversion Hp; subst p.
  destruct (classify_pixel_rule q) as [Hkeep Hdrop].
  unfold classify_pixel in *. destruct (is_car_color q) eqn:Hc.
  - right. split; [by apply is_car_color_rule|eauto].
  - by left.
Qed.

(** X4.  No visible car pixel is lost: there is one offset (dx, dy) such
    that every pixel of the source that satisfies the rule and is not
    fully transparent is found unchanged in the returned image at its
    position moved by that offset. *)
Theorem visible_car_pixels_survive src path :
  wf_image src →
  ∃ out dx dy,
    remove_dark_background src path = Some (out, [(path, PNG out)]) ∧
    ∀ x y p, getpixel src x y = Some p → keep_rule p → alpha p ≠ 0 →
      (dx ≤ x ∧ dy ≤ y)%nat ∧ getpixel out (x - dx) (y - dy) = Some p.
Proof.
  intros Hwf.
  destruct (remove_dark_background_window src path Hwf)
    as (out & dx & dy & Hrun & Hwfo & _ & Hpix & Hin).
  exists out, dx, dy. split; [done|]. intros x y p Hp Hkeep Ha.
  destruct (Hin x y p Hp Hkeep Ha) as [Hx Hy]. split; [lia|].
  rewrite Hpix by (unfold in_bounds; lia).
  replace (dx + (x - dx))%nat with x by lia.
  replace (dy + (y - dy))%nat with y by lia.
  rewrite Hp. simpl. f_equal. by apply classify_pixel_rule.
Qed.

(** X5.  [remove_dark_background] is idempotent: run on the image it
    returned, it returns that image again, with no pixel changed and
    nothing more cropped. *)
Theorem remove_dark_background_idempotent src path :
  wf_image src →
  ∃ out, remove_dark_background src path = Some (out, [(path, PNG out)]) ∧
    ∀ path', remove_dark_background out path' = Some (out, [(path', PNG out)]).
Proof.
  intros Hwf.
  pose proof (classification_pass_classify_image src Hwf) as Hpass.
  pose proof (wf_classify_image src Hwf) as Hwfi.
  destruct (getbbox (classify_image src)) as [[[[b0 b1] b2] b3]|] eqn:Hbb.
  - destruct (remove_dark_background_crops src path _ b0 b1 b2 b3 Hwf Hpass Hbb)
      as (_ & Hlt & Hrb & Hin & Hrun & _).
    pose proof (remove_dark_background_crops_bbox src _ b0 b1 b2 b3
                  Hwf Hpass Hbb) as Hbb'.
    eexists. split; [exact Hrun|]. intros path'.
    apply remove_dark_background_again; [apply wf_raster| |].
    + intros x y p. rewrite getpixel_raster. case_decide; [|done].
      intros [= <-]. apply classify_pixel_or_zero.
    + intros c0 c1 c2 c3. simpl in Hbb'. rewrite Hbb'. intros [= <- <- <- <-].
      simpl. lia.
  - exists (classify_image src). split.
    { rewrite (remove_dark_background_unfold src path _ Hpass).
      unfold crop_to_content. by rewrite Hbb. }
    intros path'. apply remove_dark_background_again; [done| |].
    + intros x y p. rewrite getpixel_classify_image.
      destruct (getpixel src x y); simpl; [|done].
      intros [= <-]. apply classify_pixel_idemp.
    + intros c0 c1 c2 c3. by rewrite Hbb.
Qed.

(** X6.  When the function crops, the returned image is the content plus
    a margin of exactly min(5, room) fully transparent columns or rows on
    each side, where room is the distance from the bounding box of the
    classified image to that edge of the source; its width and height
    are the extent of the bounding box plus the two margins. *)
Theorem returned_margins src path img b0 b1 b2 b3 :
  wf_image src →
  classification_pass src = Some img →
  getbbox img = Some (b0, b1, b2, b3) →
  ∃ out,
    remove_dark_background src path = Some (out, [(path, PNG out)]) ∧
    getbbox out =
      Some (Z.min 5 b0, Z.min 5 b1,
            Z.of_nat (width out) - Z.min 5 (Z.of_nat (width src) - b2),
            Z.of_nat (height out) - Z.min 5 (Z.of_nat (height src) - b3)) ∧
    Z.of_nat (width out) =
      Z.min 5 b0 + (b2 - b0) + Z.min 5 (Z.of_nat (width src) - b2) ∧
    Z.of_nat (height out) =
      Z.min 5 b1 + (b3 - b1) + Z.min 5 (Z.of_nat (height src) - b3).
Proof.
  intros Hwf Hpass Hbb.
  destruct (remove_dark_background_crops src path img b0 b1 b2 b3 Hwf Hpass Hbb)
    as (_ & Hlt & Hrb & Hin & Hrun & _).
  pose proof (remove_dark_background_crops_bbox src img b0 b1 b2 b3
                Hwf Hpass Hbb) as Hbb'.
  eexists. split; [exact Hrun|]. simpl in Hbb'. rewrite Hbb'. simpl.
  split; [|lia]. f_equal. rewrite !pair_equal_spec. lia.
Qed.

(** X7.  The crop is skipped exactly when the source has no pixel that
    both satisfies the rule and is not fully transparent; the function
    then returns the classified image whole.  Pixels that satisfy the
    rule but have alpha 0 do not count. *)
Theorem crop_skipped_iff_nothing_visible src path :
  wf_image src →
  ∃ img, classification_pass src = Some img ∧
    (getbbox img = None ↔
     ∀ x y p, getpixel src x y = Some p → keep_rule p → alpha p = 0) ∧
    (getbbox img = None →
     remove_dark_background src path = Some (img, [(path, PNG img)])).
Proof.
  intros Hwf.
  pose proof (classification_pass_classify_image src Hwf) as Hpass.
  exists (classify_image src). split; [done|]. split.
  - rewrite getbbox_None. split.
    + intros Hnone x y p Hp Hkeep.
      destruct (decide (alpha p = 0)) as [|Ha]; [done|]. exfalso.
      exact (Hnone _ _ (visible_car_pixel_opaque src x y p Hp Hkeep Ha)).
    + intros Hclear x y (p & Hp & Hkeep & Ha)%opaque_classified.
      exact (Ha (Hclear _ _ p Hp Hkeep)).
  - intros Hbb. rewrite (remove_dark_background_unfold src path _ Hpass).
    unfold crop_to_content. by rewrite Hbb.
Qed.

(** X8.  When the content of the classified image comes within 5 pixels
    of all four edges, the padded rectangle is clamped to the whole image
    and the function returns the classified image as it is. *)
Theorem content_near_every_edge_returned_whole src path img b0 b1 b2 b3 :
  wf_image src →
  classification_pass src = Some img →
  getbbox img = Some (b0, b1, b2, b3) →
  b0 ≤ 5 → b1 ≤ 5 →
  Z.of_nat (width src) ≤ b2 + 5 → Z.of_nat (height src) ≤ b3 + 5 →
  remove_dark_background src path = Some (img, [(path, PNG img)]).
Proof.
  intros Hwf Hpass Hbb H0 H1 H2 H3.
  pose proof (classification_pass_inv src img Hwf Hpass) as (_ & Hwfi & Hw & Hh).
  rewrite (remove_dark_background_unfold src path img Hpass).
  unfold crop_to_content. rewrite Hbb. unfold crop_box, padding.
  rewrite (Z.max_l 0 (b0 - 5)), (Z.max_l 0 (b1 - 5)) by lia.
  rewrite (Z.min_l (Z.of_nat (width src))), (Z.min_l (Z.of_nat (height src)))
    by lia.
  rewrite <- Hw, <- Hh. by rewrite crop_whole.
Qed.

(** X9.  A pixel whose green and blue are both at most red + 20 (every
    gray, red, orange or yellow) fails the first test, so the pass keeps
    it exactly when its blue and green both exceed 150.  A gray
    (v, v, v, a) is therefore cleared when v <= 150 and kept when
    v > 150: dark grays go, light grays and white stay. *)
Theorem warm_or_gray_pixel_kept_iff_bright src x y p :
  wf_image src → getpixel src x y = Some p →
  green p ≤ red p + 20 → blue p ≤ red p + 20 →
  ∃ out p', classification_pass src = Some out ∧
    getpixel out x y = Some p' ∧
    (150 < blue p ∧ 150 < green p → p' = p) ∧
    (¬ (150 < blue p ∧ 150 < green p) → p' = Pixel 0 0 0 0) ∧
    (red p = green p → green p = blue p →
     (red p ≤ 150 → p' = Pixel 0 0 0 0) ∧ (150 < red p → p' = p)).
Proof.
  intros Hwf Hp Hg Hb.
  destruct (classification_pass_pixel src x y p Hwf Hp) as (out & Hpass & Hout).
  exists out, (classify_pixel p). split; [done|]. split; [done|].
  destruct (classify_pixel_rule p) as [Hkeep Hdrop].
  assert (keep_rule p ↔ 150 < blue p ∧ 150 < green p) as Hrule
    by (unfold keep_rule; lia).
  split_and!.
  - intros Hbright. by apply Hkeep, Hrule.
  - intros Hdark. apply Hdrop. by rewrite Hrule.
  - intros Hrg Hgb. split.
    + intros Hv. apply Hdrop. rewrite Hrule. lia.
    + intros Hv. apply Hkeep, Hrule. lia.
Qed.

(** ** Where the exporters write *)

Lemma prefix_append (a b : string) : String.prefix a (a ++ b) = true.
Proof.
  induction a as [|c a IH]; simpl; [by destruct b|].
  by destruct (Ascii.ascii_dec c c).
Qed.

(** A relative name joined to a directory stays under that directory. *)
Lemma os_path_join_prefix (a b : string) :
  String.prefix "/" b = false → String.prefix a (os_path_join a b) = true.
Proof.
  intros Hrel. unfold os_path_join. rewrite Hrel.
  destruct (String.eqb a EmptyString) eqn:Hempty.
  - apply String.eqb_eq in Hempty. subst a. by destruct b.
  - destruct (String.eqb _ "/"); apply prefix_append.
Qed.

Section ExporterProperties.

Variable resample : image → nat → nat → nat → nat → pixel.

(** X10.  [create_favicon_sizes] saves nowhere but under [public_dir]:
    the paths it saves to are, in order, [os.path.join(public_dir, name)]
    for the five fixed relative names, and each of them has [public_dir]
    as a prefix, whatever the directory string and the input image are.
    The statement is about the paths of a run that returns; it does not
    say that the saves succeed. *)
Theorem create_favicon_sizes_saves_under_public_dir img dir written :
  create_favicon_sizes resample img dir = Some written →
  map fst written =
    map (os_path_join dir)
      [ "favicon-16x16.png"; "favicon-32x32.png"; "favicon-192x192.png";
        "apple-touch-icon.png"; "favicon.ico" ]%string ∧
  ∀ path f, (path, f) ∈ written → String.prefix dir path = true.
Proof.
  destruct (create_favicon_sizes_written resample img dir)
    as (r16 & r32 & r192 & r180 & i16 & i32 & i48 & _ & Hrun).
  rewrite Hrun. intros [= <-]. split; [reflexivity|].
  intros path f Hin.
  repeat (apply elem_of_cons in Hin as [[= -> _]|Hin];
          [by apply os_path_join_prefix|]).
  by apply elem_of_nil in Hin.
Qed.

(** X11.  The script hands the image [remove_dark_background] returns,
    and not the source, to both exporters.  Whenever the run returns,
    what it wrote is, in this order and under these names: the logo that
    [remove_dark_background] returned; favicon.png, the thumbnail of that
    logo in 128 by 128; the four PNG icons, each the exact resize of that
    logo to its nominal size; and favicon.ico, holding the 16 by 16
    resize of that logo. *)
Theorem main_writes_seven_files src written :
  main resample src = Some written →
  ∃ logo favicon p16 p32 p192 p180,
    remove_dark_background src "client/public/car-logo-transparent.png" =
      Some (logo, [("client/public/car-logo-transparent.png"%string, PNG logo)]) ∧
    thumbnail resample logo (128, 128)%nat = Some favicon ∧
    resize resample logo (16, 16)%nat = Some p16 ∧
    resize resample logo (32, 32)%nat = Some p32 ∧
    resize resample logo (192, 192)%nat = Some p192 ∧
    resize resample logo (180, 180)%nat = Some p180 ∧
    (size_of p16 = (16, 16)%nat ∧ size_of p32 = (32, 32)%nat ∧
     size_of p192 = (192, 192)%nat ∧ size_of p180 = (180, 180)%nat) ∧
    written =
      [ ("client/public/car-logo-transparent.png"%string, PNG logo);
        ("client/public/favicon.png"%string, PNG favicon);
        ("client/public/favicon-16x16.png"%string, PNG p16);
        ("client/public/favicon-32x32.png"%string, PNG p32);
        ("client/public/favicon-192x192.png"%string, PNG p192);
        ("client/public/apple-touch-icon.png"%string, PNG p180);
        ("client/public/favicon.ico"%string, ICO [p16]) ].
Proof.
  unfold main, remove_dark_background.
  destruct (classification_pass src) as [img|]; [|done].
  cbn -[create_favicon create_favicon_sizes crop_to_content].
  destruct (crop_to_content (width src) (height src) img) as [logo|]; [|done].
  cbn -[create_favicon create_favicon_sizes]. unfold create_favicon.
  destruct (thumbnail resample logo (128, 128)%nat) as [favicon|] eqn:Hthumb;
    [|done].
  cbn -[create_favicon_sizes].
  destruct (create_favicon_sizes_resizes resample logo "client/public")
    as (p16 & p32 & p192 & p180 & H16 & H32 & H192 & H180 & Hsizes & Hrun).
  rewrite Hrun. cbn. intros [= <-].
  exists logo, favicon, p16, p32, p192, p180.
  split_and!; try done; apply Hsizes.
Qed.

End ExporterProperties.

(** ** The further properties on concrete inputs *)

Lemma classification_pass_completes_witness :
  wf_image car_on_gray ∧
  ∃ out, classification_pass car_on_gray = Some out ∧ wf_image out ∧
         width out = 16%nat ∧ height out = 12%nat.
Proof.
  assert (wf_image car_on_gray) as Hwf by apply wf_raster.
  split; [exact Hwf|]. exact (classification_pass_completes car_on_gray Hwf).
Defined.

Lemma classify_and_crop_never_raise_witness :
  wf_image car_on_gray ∧
  ∃ img out,
    classification_pass car_on_gray = Some img ∧
    crop_to_content 16 12 img = Some out ∧
    wf_image out ∧
    (width out ≤ 16 ∧ height out ≤ 12)%nat ∧
    ((0 < 16)%nat → (0 < 12)%nat → (0 < width out ∧ 0 < height out)%nat) ∧
    ∀ path res, remove_dark_background car_on_gray path = Some res →
                res = (out, [(path, PNG out)]).
Proof.
  assert (wf_image car_on_gray) as Hwf by apply wf_raster.
  split; [exact Hwf|]. exact (classify_and_crop_never_raise car_on_gray Hwf).
Defined.

Lemma returned_pixels_clear_or_car_witness :
  wf_image car_on_gray ∧
  ∃ out, remove_dark_background car_on_gray "logo.png" =
           Some (out, [("logo.png"%string, PNG out)]) ∧
    ∀ x y p, getpixel out x y = Some p →
      p = Pixel 0 0 0 0 ∨
      (keep_rule p ∧ ∃ x' y', getpixel car_on_gray x' y' = Some p).
Proof.
  assert (wf_image car_on_gray) as Hwf by apply wf_raster.
  split; [exact Hwf|].
  exact (returned_pixels_clear_or_car car_on_gray "logo.png" Hwf).
Defined.

Lemma visible_car_pixels_survive_witness :
  wf_image car_on_gray ∧
  ∃ out dx dy,
    remove_dark_background car_on_gray "logo.png" =
      Some (out, [("logo.png"%string, PNG out)]) ∧
    ∀ x y p, getpixel car_on_gray x y = Some p → keep_rule p → alpha p ≠ 0 →
      (dx ≤ x ∧ dy ≤ y)%nat ∧ getpixel out (x - dx) (y - dy) = Some p.
Proof.
  assert (wf_image car_on_gray) as Hwf by apply wf_raster.
  split; [exact Hwf|].
  exact (visible_car_pixels_survive car_on_gray "logo.png" Hwf).
Defined.

Lemma remove_dark_background_idempotent_witness :
  wf_image car_on_gray ∧
  ∃ out, remove_dark_background car_on_gray "logo.png" =
           Some (out, [("logo.png"%string, PNG out)]) ∧
    ∀ path', remove_dark_background out path' = Some (out, [(path', PNG out)]).
Proof.
  assert (wf_image car_on_gray) as Hwf by apply wf_raster.
  split; [exact Hwf|].
  exact (remove_dark_background_idempotent car_on_gray "logo.png" Hwf).
Defined.

Lemma returned_margins_witness :
  wf_image car_on_gray ∧
  classification_pass car_on_gray = Some (classify_image car_on_gray) ∧
  getbbox (classify_image car_on_gray) = Some (9, 7, 11, 9) ∧
  ∃ out,
    remove_dark_background car_on_gray "logo.png" =
      Some (out, [("logo.png"%string, PNG out)]) ∧
    getbbox out =
      Some (5, 5, Z.of_nat (width out) - 5, Z.of_nat (height out) - 3) ∧
    Z.of_nat (width out) = 5 + (11 - 9) + 5 ∧
    Z.of_nat (height out) = 5 + (9 - 7) + 3.
Proof.
  assert (wf_image car_on_gray) as Hwf by apply wf_raster.
  split; [exact Hwf|]. split; [reflexivity|]. split; [reflexivity|].
  exact (returned_margins car_on_gray "logo.png" (classify_image car_on_gray)
           9 7 11 9 Hwf eq_refl eq_refl).
Defined.

Lemma crop_skipped_iff_nothing_visible_witness :
  wf_image gray_strip ∧
  ∃ img, classification_pass gray_strip = Some img ∧
    (getbbox img = None ↔
     ∀ x y p, getpixel gray_strip x y = Some p → keep_rule p → alpha p = 0) ∧
    (getbbox img = None →
     remove_dark_background gray_strip "logo.png" =
       Some (img, [("logo.png"%string, PNG img)])).
Proof.
  assert (wf_image gray_strip) as Hwf by (apply wf_imageb_true; reflexivity).
  split; [exact Hwf|].
  exact (crop_skipped_iff_nothing_visible gray_strip "logo.png" Hwf).
Defined.

Lemma content_near_every_edge_returned_whole_witness :
  wf_image green_3x2 ∧
  classification_pass green_3x2 = Some green_3x2 ∧
  getbbox green_3x2 = Some (0, 0, 3, 2) ∧
  0 ≤ 5 ∧ 0 ≤ 5 ∧ 3 ≤ 3 + 5 ∧ 2 ≤ 2 + 5 ∧
  remove_dark_background green_3x2 "logo.png" =
    Some (green_3x2, [("logo.png"%string, PNG green_3x2)]).
Proof.
  assert (wf_image green_3x2) as Hwf by apply wf_raster.
  split; [exact Hwf|]. split; [reflexivity|]. split; [reflexivity|].
  split; [lia|]. split; [lia|]. split; [lia|]. split; [lia|].
  apply (content_near_every_edge_returned_whole green_3x2 "logo.png"
           green_3x2 0 0 3 2 Hwf eq_refl eq_refl); simpl; lia.
Defined.

Lemma warm_or_gray_pixel_kept_iff_bright_witness :
  wf_image gray_pixel ∧
  getpixel gray_pixel 0 0 = Some (Pixel 20 20 20 255) ∧
  20 ≤ 20 + 20 ∧ 20 ≤ 20 + 20 ∧
  ∃ out p', classification_pass gray_pixel = Some out ∧
    getpixel out 0 0 = Some p' ∧
    (150 < 20 ∧ 150 < 20 → p' = Pixel 20 20 20 255) ∧
    (¬ (150 < 20 ∧ 150 < 20) → p' = Pixel 0 0 0 0) ∧
    (20 = 20 → 20 = 20 →
     (20 ≤ 150 → p' = Pixel 0 0 0 0) ∧ (150 < 20 → p' = Pixel 20 20 20 255)).
Proof.
  assert (wf_image gray_pixel) as Hwf by (apply wf_imageb_true; reflexivity).
  split; [exact Hwf|]. split; [reflexivity|]. split; [lia|]. split; [lia|].
  apply (warm_or_gray_pixel_kept_iff_bright gray_pixel 0 0 (Pixel 20 20 20 255)
           Hwf eq_refl); simpl; lia.
Defined.

Lemma create_favicon_sizes_saves_under_public_dir_witness :
  ∃ written,
    create_favicon_sizes nearest green_3x2 "client/public" = Some written ∧
    map fst written =
      map (os_path_join "client/public")
        [ "favicon-16x16.png"; "favicon-32x32.png"; "favicon-192x192.png";
          "apple-touch-icon.png"; "favicon.ico" ]%string ∧
    ∀ path f, (path, f) ∈ written →
              String.prefix "client/public" path = true.
Proof.
  destruct (create_favicon_sizes_written nearest green_3x2 "client/public")
    as (r16 & r32 & r192 & r180 & i16 & i32 & i48 & _ & Hrun).
  eexists. split; [exact Hrun|].
  exact (create_favicon_sizes_saves_under_public_dir nearest green_3x2
           "client/public" _ Hrun).
Defined.

Lemma main_writes_seven_files_witness :
  ∃ written,
    main nearest car_on_gray = Some written ∧
    ∃ logo favicon p16 p32 p192 p180,
      remove_dark_background car_on_gray
        "client/public/car-logo-transparent.png" =
        Some (logo,
              [("client/public/car-logo-transparent.png"%string, PNG logo)]) ∧
      thumbnail nearest logo (128, 128)%nat = Some favicon ∧
      resize nearest logo (16, 16)%nat = Some p16 ∧
      resize nearest logo (32, 32)%nat = Some p32 ∧
      resize nearest logo (192, 192)%nat = Some p192 ∧
      resize nearest logo (180, 180)%nat = Some p180 ∧
      (size_of p16 = (16, 16)%nat ∧ size_of p32 = (32, 32)%nat ∧
       size_of p192 = (192, 192)%nat ∧ size_of p180 = (180, 180)%nat) ∧
      written =
        [ ("client/public/car-logo-transparent.png"%string, PNG logo);
          ("client/public/favicon.png"%string, PNG favicon);
          ("client/public/favicon-16x16.png"%string, PNG p16);
          ("client/public/favicon-32x32.png"%string, PNG p32);
          ("client/public/favicon-192x192.png"%string, PNG p192);
          ("client/public/apple-touch-icon.png"%string, PNG p180);
          ("client/public/favicon.ico"%string, ICO [p16]) ].
Proof.
  assert (wf_image car_on_gray) as Hwf by apply wf_raster.
  destruct (main_total nearest car_on_gray Hwf) as (written & Hmain & _);
    [cbn [width car_on_gray raster]; lia
    |cbn [height car_on_gray raster]; lia|].
  exists written. split; [exact Hmain|].
  exact (main_writes_seven_files nearest car_on_gray written Hmain).
Defined.
